(** * A* routing on a rasterised layout: gdsfactory/routing/astar_routing.py

    A shallow embedding of [Node], [astar_routing], [_generate_grid] and
    [_generate_neighbours], followed by the properties of the routing core.

    Numbers.  The Python code computes with floats and ints mixed; here every
    number is an exact rational ([Q]).  Python's [==], [<] and [>] on numbers
    become [Qeq_bool] and [Qle_bool].  The concrete inputs used below are
    chosen with slack in every comparison, so the outcome does not depend on
    float rounding.

    Errors.  An exception raised by the code is a value [Err e]; the
    functions that can raise live in the error monad [res].

    The [while open_list] loop may run without bound, so [astar_routing]
    takes a number of iterations it may perform and answers [None] when the
    loop is still running after that many. *)

From Stdlib Require Import String QArith Qabs Qround ZArith List Bool Lia Lqa.
From Stdlib Require Import Permutation.
Import ListNotations.
Open Scope Q_scope.

(** ** Exceptions and the error monad *)

Inductive exn : Type :=
| KeyError        (* dict lookup with a missing key *)
| ValueError      (* int(nan), linspace with a negative count, max of [] *)
| OverflowError   (* int(inf) *)
| IndexError      (* indexing an empty array *)
| StopIteration.  (* next() on an exhausted generator *)

Inductive res (A : Type) : Type :=
| Ok (a : A)
| Err (e : exn).
Arguments Ok {A} a.
Arguments Err {A} e.

Definition bind {A B : Type} (m : res A) (k : A -> res B) : res B :=
  match m with
  | Ok a => k a
  | Err e => Err e
  end.

Notation "x <- m ;; k" := (bind m (fun x => k))
  (at level 61, m at next level, right associativity).
Notation "' p <- m ;; k" := (bind m (fun p => k))
  (at level 61, p pattern, m at next level, right associativity).

(** ** Numbers as the code uses them *)

Definition Qltb (a b : Q) : bool := negb (Qle_bool b a).

(** Python's [round(x)] with one argument: nearest integer, ties to even. *)
Definition py_round (q : Q) : Z :=
  let fl := Qfloor q in
  let twice := (q - inject_Z fl) * 2 in
  if Qltb twice 1 then fl
  else if Qltb 1 twice then (fl + 1)%Z
  else if Z.even fl then fl else (fl + 1)%Z.

(** [np.ndarray.round(a, 3)] on one entry. *)
Definition np_round3 (q : Q) : Q := inject_Z (py_round (q * 1000)) / 1000.

(** [int(a / b)] where [a] is a numpy float: a zero divisor gives nan or
    an infinity, which [int] refuses; otherwise [int] truncates toward 0. *)
Definition int_div (a b : Q) : res Z :=
  if Qeq_bool b 0 then
    if Qeq_bool a 0 then Err ValueError else Err OverflowError
  else
    let q := a / b in Ok (Z.quot (Qnum q) (Zpos (Qden q))).

(** [np.linspace(start, stop, num, endpoint=True)]. *)
Definition np_linspace (start stop : Q) (num : Z) : res (list Q) :=
  if (num <? 0)%Z then Err ValueError
  else
    let n := Z.to_nat num in
    match n with
    | O => Ok []
    | S O => Ok [start]
    | S m =>
        let step := (stop - start) / inject_Z (Z.of_nat m) in
        Ok (map (fun i => start + inject_Z (Z.of_nat i) * step) (seq 0 m)
              ++ [stop])
    end.

(** [a.max()] and [a.min()] of a one-dimensional array. *)
Fixpoint np_max_from (m : Q) (l : list Q) : Q :=
  match l with
  | [] => m
  | a :: l' => np_max_from (if Qltb m a then a else m) l'
  end.

Fixpoint np_min_from (m : Q) (l : list Q) : Q :=
  match l with
  | [] => m
  | a :: l' => np_min_from (if Qltb a m then a else m) l'
  end.

Definition np_max (l : list Q) : res Q :=
  match l with
  | [] => Err ValueError
  | a :: l' => Ok (np_max_from a l')
  end.

Definition np_min (l : list Q) : res Q :=
  match l with
  | [] => Err ValueError
  | a :: l' => Ok (np_min_from a l')
  end.

(** [np.abs(a - v).argmin()]: the first index at which the distance to [v]
    is least.  [argmin_from best bd i l] scans [l], whose first entry has
    index [i], with [best] the best index so far and [bd] its distance. *)
Fixpoint argmin_from (v : Q) (best : nat) (bd : Q) (i : nat) (l : list Q)
  : nat :=
  match l with
  | [] => best
  | a :: l' =>
      let d := Qabs (a - v) in
      if Qltb d bd then argmin_from v i d (S i) l'
      else argmin_from v best bd (S i) l'
  end.

Definition abs_argmin (l : list Q) (v : Q) : nat :=
  match l with
  | [] => O
  | a :: l' => argmin_from v O (Qabs (a - v)) 1 l'
  end.

(** [np.isclose(a, b, atol=atol)] with the default [rtol = 1e-05]. *)
Definition rtol : Q := 1 # 100000.

Definition np_isclose (a b atol : Q) : bool :=
  Qle_bool (Qabs (a - b)) (atol + rtol * Qabs b).

(** ** Data model *)

Definition point : Type := (Q * Q)%type.

(** A bounding box [((xmin, ymin), (xmax, ymax))]. *)
Definition bbox_t : Type := (point * point)%type.

(** What the code reads of a [Component]: its bounding box and the
    bounding boxes of its references. *)
Record Component : Type := mkComponent {
  bbox : bbox_t;
  references : list bbox_t
}.

(** What the code reads of a [Port].  [orientation = None] is Python's
    [None]. *)
Record Port : Type := mkPort {
  center : point;
  orientation : option Q
}.

Definition port_x (p : Port) : Q := fst (center p).
Definition port_y (p : Port) : Q := snd (center p).

(** [class Node].  Python compares nodes with [==] by object identity
    (the class defines no [__eq__]); [nid] is that identity, handed out by
    an allocation counter. *)
#[warnings="-register-all"]
Inductive Node : Type :=
| mkNode (nid : nat) (parent : option Node) (position : point) (g h f : Q).

Definition nid (n : Node) : nat := let (i, _, _, _, _, _) := n in i.
Definition parent (n : Node) : option Node := let (_, p, _, _, _, _) := n in p.
Definition position (n : Node) : point := let (_, _, p, _, _, _) := n in p.
Definition g (n : Node) : Q := let (_, _, _, x, _, _) := n in x.
Definition h (n : Node) : Q := let (_, _, _, _, x, _) := n in x.
Definition f (n : Node) : Q := let (_, _, _, _, _, x) := n in x.

(** [Node(parent, position)]: g = h = 0 and f = g + h. *)
Definition new_Node (i : nat) (par : option Node) (pos : point) : Node :=
  mkNode i par pos 0 0 (0 + 0).

Definition node_eq (a b : Node) : bool := Nat.eqb (nid a) (nid b).

(** The occupancy grid: [grid[i][j]] is [true] for the value 1.0. *)
Definition grid_t : Type := list (list bool).

(** ** _generate_grid *)

(** [grid[xmin:xmax, ymin:ymax] = 1]: rows [xmin <= i < xmax], columns
    [ymin <= j < ymax]. *)
Definition in_slice (lo hi i : nat) : bool :=
  Nat.leb lo i && Nat.ltb i hi.

Definition mark_row (ymin ymax : nat) (row : list bool) : list bool :=
  map (fun jc => if in_slice ymin ymax (fst jc) then true else snd jc)
      (combine (seq 0 (length row)) row).

Definition mark_slice (xmin xmax ymin ymax : nat) (grid : grid_t) : grid_t :=
  map (fun ir => if in_slice xmin xmax (fst ir)
                 then mark_row ymin ymax (snd ir) else snd ir)
      (combine (seq 0 (length grid)) grid).

Definition mark_reference (x y : list Q) (grid : grid_t) (rb : bbox_t)
  : grid_t :=
  let xmin := abs_argmin x (fst (fst rb)) in
  let xmax := abs_argmin x (fst (snd rb)) in
  let ymin := abs_argmin y (snd (fst rb)) in
  let ymax := abs_argmin y (snd (snd rb)) in
  mark_slice xmin xmax ymin ymax grid.

(** The two axes: [np.meshgrid] of the two [linspace]s, then [x[0]] and
    [y[:, 0]], each of which raises IndexError on an empty array. *)
Definition grid_axes (c : Component) (resolution : Q)
  : res (list Q * list Q) :=
  let b := bbox c in
  nx <- int_div (fst (snd b) - fst (fst b)) resolution ;;
  xs <- np_linspace (fst (fst b)) (fst (snd b)) nx ;;
  ny <- int_div (snd (snd b) - snd (fst b)) resolution ;;
  ys <- np_linspace (snd (fst b)) (snd (snd b)) ny ;;
  match ys, xs with
  | [], _ => Err IndexError        (* x[0] on an array with no row *)
  | _, [] => Err IndexError        (* y[:, 0] on an array with no column *)
  | _, _ => Ok (xs, ys)
  end.

Definition _generate_grid (c : Component) (resolution : Q)
  : res (grid_t * list Q * list Q) :=
  ' (x, y) <- grid_axes c resolution ;;
  let grid0 := repeat (repeat false (length y)) (length x) in
  let grid := fold_left (mark_reference x y) (references c) grid0 in
  Ok (grid, map np_round3 x, map np_round3 y).


(** [grid[i][j] == 1.0]; an index past the end raises IndexError. *)
Definition grid_at (grid : grid_t) (i j : nat) : res bool :=
  match nth_error grid i with
  | None => Err IndexError
  | Some row =>
      match nth_error row j with
      | None => Err IndexError
      | Some c => Ok c
      end
  end.

(** ** _generate_neighbours *)

(** [next(i for i, _ in enumerate(axis) if np.isclose(_, v, atol=1))]:
    the first index whose coordinate is close to [v]; StopIteration when
    there is none. *)
Fixpoint first_close_from (i : nat) (axis : list Q) (v : Q) : res nat :=
  match axis with
  | [] => Err StopIteration
  | a :: axis' =>
      if np_isclose a v 1 then Ok i else first_close_from (S i) axis' v
  end.

Definition first_close (axis : list Q) (v : Q) : res nat :=
  first_close_from 0 axis v.

(** The four moves, in the order of the source: south, north, west, east. *)
Definition moves (resolution : Q) : list point :=
  [ (0, - resolution); (0, resolution); (- resolution, 0); (resolution, 0) ].

(** The body of the loop over the moves.  [fresh] is the identity the next
    allocated node gets; [neighbours] is the list built so far. *)
Fixpoint neighbours_loop (new_positions : list point) (current_node : Node)
    (grid : grid_t) (x y : list Q) (fresh : nat) (neighbours : list Node)
  : res (list Node) :=
  match new_positions with
  | [] => Ok neighbours
  | new_position :: rest =>
      let continue := neighbours_loop rest current_node grid x y fresh
                        neighbours in
      let node_position :=
        (fst (position current_node) + fst new_position,
         snd (position current_node) + snd new_position) in
      xmax <- np_max x ;;
      if Qltb xmax (fst node_position) then continue else
      xmin <- np_min x ;;
      if Qltb (fst node_position) xmin then continue else
      ymax <- np_max y ;;
      if Qltb ymax (snd node_position) then continue else
      ymin <- np_min y ;;
      if Qltb (snd node_position) ymin then continue else
      i <- first_close x (fst node_position) ;;
      j <- first_close y (snd node_position) ;;
      occupied <- grid_at grid i j ;;
      if occupied then continue else
      let new_node := new_Node fresh (Some current_node) node_position in
      neighbours_loop rest current_node grid x y (S fresh)
        (neighbours ++ [new_node])
  end.

Definition _generate_neighbours (current_node : Node) (grid : grid_t)
    (x y : list Q) (resolution : Q) (fresh : nat) : res (list Node) :=
  neighbours_loop (moves resolution) current_node grid x y fresh [].

(** ** astar_routing *)

(** The collaborators are outside this file; a call to one of them is
    kept as a term. *)
Inductive CrossSection : Type :=
| get_cross_section (cross_section : string) (kwargs : list (string * Q)).

Inductive Route : Type :=
| get_route_from_waypoints (points : list point) (cross_section : CrossSection)
| route_manhattan (input_port output_port : Port)
    (cross_section : CrossSection).

(** How a call of [astar_routing] ends: an exception, or a returned route
    together with the warnings emitted on the way. *)
Inductive outcome : Type :=
| Raised (e : exn)
| Returned (warnings : list string) (r : Route).

Definition fallback_warning : string :=
  "A* algorithm failed, resorting to Manhattan routing. Watch for overlaps.".

(** The dict lookup on [port.orientation]. *)
Definition orientation_step (resolution : Q) (o : option Q) : res point :=
  match o with
  | None => Ok (0, 0)
  | Some a =>
      if Qeq_bool a 0 then Ok (resolution, 0)
      else if Qeq_bool a 90 then Ok (0, resolution)
      else if Qeq_bool a 180 then Ok (- resolution, 0)
      else if Qeq_bool a 270 then Ok (0, - resolution)
      else Err KeyError
  end.

(** [Node(None, (round(port.x + o[0]), round(port.y + o[1])))] followed by
    [g = h = f = 0]. *)
Definition anchor_node (i : nat) (p : Port) (o : point) : Node :=
  mkNode i None
    (inject_Z (py_round (port_x p + fst o)),
     inject_Z (py_round (port_y p + snd o))) 0 0 0.

(** A [for] loop whose body does nothing but, on some elements, [continue]:
    either way the loop goes on with the next element. *)
Inductive flow : Type := Fallthrough | Continue.

Fixpoint for_each {A : Type} (l : list A) (body : A -> flow) : unit :=
  match l with
  | [] => tt
  | a :: l' =>
      match body a with
      | Continue => for_each l' body
      | Fallthrough => for_each l' body
      end
  end.

(** The search state: the two lists and the allocation counter. *)
Record state : Type := mkState {
  open_list : list Node;
  closed : list Node;
  fresh : nat
}.

(** What one run of the body of [while open_list] does. *)
Inductive body_result : Type :=
| Again (s : state)
| ReturnRoute (r : Route)
| RaiseExn (e : exn).

Definition dummy_node : Node := new_Node 0 None (0, 0).

(** The scan for the first node of least [f]. *)
Definition select_current (open_list : list Node) : nat :=
  fold_left
    (fun current_index index =>
       if Qltb (f (nth index open_list dummy_node))
               (f (nth current_index open_list dummy_node))
       then index else current_index)
    (seq 0 (length open_list)) O.

(** [l.pop(i)]: the list without its element of index [i]. *)
Definition pop_at {A : Type} (i : nat) (l : list A) : list A :=
  firstn i l ++ skipn (S i) l.

(** The walk up the parent links, appending each position. *)
Fixpoint trace_back (current : Node) : list point :=
  match current with
  | mkNode _ par pos _ _ _ =>
      pos :: match par with
             | None => []
             | Some p => trace_back p
             end
  end.

Section Search.

Variables (grid : grid_t) (x y : list Q) (resolution : Q).
Variables (input_port output_port : Port) (cross_section : CrossSection).
Variable end_node : Node.

(** The body of [for neighbour in neighbours]. *)
Definition visit_neighbour (current_node : Node) (closed : list Node)
    (open_list : list Node) (neighbour : Node) : list Node :=
  let 'tt := for_each closed
               (fun closed_neighbour =>
                  if node_eq neighbour closed_neighbour
                  then Continue else Fallthrough) in
  let g' := g current_node + resolution in
  let h' := (fst (position neighbour) - fst (position end_node)) ^ 2
            + (snd (position neighbour) - snd (position end_node)) ^ 2 in
  let neighbour :=
    mkNode (nid neighbour) (parent neighbour) (position neighbour)
      g' h' (g' + h') in
  let 'tt := for_each open_list
               (fun open_list_node =>
                  if node_eq neighbour open_list_node
                     && Qltb (g open_list_node) (g neighbour)
                  then Continue else Fallthrough) in
  open_list ++ [neighbour].

Definition reached_end (current_node : Node) : bool :=
  Qeq_bool (fst (position current_node)) (fst (position end_node))
  && Qeq_bool (snd (position current_node)) (snd (position end_node)).

(** The points handed to [get_route_from_waypoints]. *)
Definition waypoints (current_node : Node) : list point :=
  center input_port :: rev (trace_back current_node)
    ++ [center output_port].

(** One run of the loop body, for a state whose open list is not empty. *)
Definition astar_body (s : state) : body_result :=
  let current_index := select_current (open_list s) in
  match nth_error (open_list s) current_index with
  | None => RaiseExn IndexError
  | Some current_node =>
      let open_list' := pop_at current_index (open_list s) in
      let closed' := closed s ++ [current_node] in
      if reached_end current_node then
        ReturnRoute
          (get_route_from_waypoints (waypoints current_node) cross_section)
      else
        match _generate_neighbours current_node grid x y resolution
                (fresh s) with
        | Err e => RaiseExn e
        | Ok neighbours =>
            Again
              (mkState
                 (fold_left (visit_neighbour current_node closed')
                    neighbours open_list')
                 closed'
                 (fresh s + length neighbours))
        end
  end.

(** [while open_list: ...] followed by the warning and the fallback.
    [fuel] bounds the number of runs of the body. *)
Fixpoint astar_loop (fuel : nat) (s : state) : option outcome :=
  match open_list s with
  | [] =>
      Some (Returned [fallback_warning]
              (route_manhattan input_port output_port cross_section))
  | _ :: _ =>
      match fuel with
      | O => None
      | S fuel' =>
          match astar_body s with
          | Again s' => astar_loop fuel' s'
          | ReturnRoute r => Some (Returned [] r)
          | RaiseExn e => Some (Raised e)
          end
      end
  end.

(** The state after [k] runs of the body, when none of them left the
    loop. *)
Fixpoint iterate (k : nat) (s : state) : option state :=
  match k with
  | O => Some s
  | S k' =>
      match open_list s with
      | [] => None
      | _ :: _ =>
          match astar_body s with
          | Again s' => iterate k' s'
          | _ => None
          end
      end
  end.

End Search.

Definition initial_state (start_node : Node) : state :=
  mkState [start_node] [] 2.

Definition astar_routing (fuel : nat) (c : Component)
    (input_port output_port : Port) (resolution : Q)
    (cross_section : string) (kwargs : list (string * Q)) : option outcome :=
  let cross_section := get_cross_section cross_section kwargs in
  match _generate_grid c resolution with
  | Err e => Some (Raised e)
  | Ok (grid, x, y) =>
      match orientation_step resolution (orientation input_port) with
      | Err e => Some (Raised e)
      | Ok input_orientation =>
          match orientation_step resolution (orientation output_port) with
          | Err e => Some (Raised e)
          | Ok output_orientation =>
              let start_node := anchor_node 0 input_port input_orientation in
              let end_node := anchor_node 1 output_port output_orientation in
              astar_loop grid x y resolution input_port output_port
                cross_section end_node fuel (initial_state start_node)
          end
      end
  end.

(** The node a generated neighbour becomes once its costs are set. *)
Definition with_costs (resolution : Q) (end_node current_node : Node)
    (neighbour : Node) : Node :=
  let g' := g current_node + resolution in
  let h' := (fst (position neighbour) - fst (position end_node)) ^ 2
            + (snd (position neighbour) - snd (position end_node)) ^ 2 in
  mkNode (nid neighbour) (parent neighbour) (position neighbour)
    g' h' (g' + h').

(** ** The part of [astar_routing] before the loop *)

(** What the loop starts from: the grid with its axes, the start node and
    the end node. *)
Definition setup (c : Component) (input_port output_port : Port)
    (resolution : Q) : res (grid_t * list Q * list Q * Node * Node) :=
  ' (grid, x, y) <- _generate_grid c resolution ;;
  input_orientation <- orientation_step resolution (orientation input_port) ;;
  output_orientation <-
    orientation_step resolution (orientation output_port) ;;
  Ok (grid, x, y, anchor_node 0 input_port input_orientation,
      anchor_node 1 output_port output_orientation).

(** ** Concrete layouts used below *)

(** The square (0,0)-(10,10) without obstacle, and with a wall over
    x in [4,6] at full height. *)
Definition empty_square : Component := mkComponent ((0, 0), (10, 10)) [].

Definition walled_square : Component :=
  mkComponent ((0, 0), (10, 10)) [((4, 0), (6, 10))].

Definition west_port : Port := mkPort (0, 5) (Some 0).
Definition east_port : Port := mkPort (10, 5) (Some 180).

(** A port far to the east of the layout: its start node has no neighbour
    inside the grid. *)
Definition far_port : Port := mkPort (20, 5) (Some 0).

(** ** Start and end anchoring, in the words of the specification *)

(** The step vector of an orientation: 0 -> +x, 90 -> +y, 180 -> -x,
    270 -> -y, each of length [resolution], and no orientation -> (0, 0). *)
Inductive step_vector (resolution : Q) : option Q -> point -> Prop :=
| step_east a : a == 0 -> step_vector resolution (Some a) (resolution, 0)
| step_north a : a == 90 -> step_vector resolution (Some a) (0, resolution)
| step_west a : a == 180 -> step_vector resolution (Some a) (- resolution, 0)
| step_south a : a == 270 -> step_vector resolution (Some a) (0, - resolution)
| step_free : step_vector resolution None (0, 0).

(** The centre of a port moved by a step, each coordinate then rounded to
    the nearest integer. *)
Definition rounded_offset (p : Port) (o : point) : point :=
  (inject_Z (py_round (port_x p + fst o)),
   inject_Z (py_round (port_y p + snd o))).

(** A port whose centre is off the integer lattice and that has no
    orientation. *)
Definition free_port : Port := mkPort (1 # 4, 5) None.

(** ** The cost model, in the words of the specification *)

(** The number of moves from the root to a node. *)
Fixpoint depth (n : Node) : nat :=
  match n with
  | mkNode _ par _ _ _ _ =>
      match par with
      | None => O
      | Some p => S (depth p)
      end
  end.

(** The squared Euclidean distance between two positions, in layout
    coordinates: the differences of the coordinates as they are, not divided
    by the resolution. *)
Definition squared_distance (p q : point) : Q :=
  (fst p - fst q) ^ 2 + (snd p - snd q) ^ 2.

(** The squared Euclidean distance in grid units, as the specification has
    it: the differences of the coordinates counted in cells of side
    [resolution]. *)
Definition squared_grid_distance (resolution : Q) (p q : point) : Q :=
  ((fst p - fst q) / resolution) ^ 2 + ((snd p - snd q) / resolution) ^ 2.

(** [resolution] added to 0 once per move, in the order the code adds it. *)
Fixpoint accumulated (resolution : Q) (steps : nat) : Q :=
  match steps with
  | O => 0
  | S k => accumulated resolution k + resolution
  end.

(** What holds of the costs of a node in a search from [st] to [en]. *)
Definition costs_ok (r : Q) (st en : Node) (n : Node) : Prop :=
  g n = accumulated r (depth n)
  /\ f n = g n + h n
  /\ match parent n with
     | None => n = st
     | Some p =>
         g n = g p + r
         /\ h n = squared_distance (position n) (position en)
     end.

(** ** Axis spacing *)

(** Every two consecutive coordinates of the axis are at most [d] apart. *)
Fixpoint spacing_at_most (d : Q) (axis : list Q) : Prop :=
  match axis with
  | a :: (b :: _) as rest => Qabs (b - a) <= d /\ spacing_at_most d rest
  | _ => True
  end.

(** ** What a kept neighbour went through *)

(** The candidate position [p] passed the bounds check on the axes, its
    cell was looked up at indices [i] and [j], and that cell is free. *)
Definition candidate_kept (grid : grid_t) (x y : list Q) (p : point)
    (i j : nat) : Prop :=
  (exists xmax, np_max x = Ok xmax /\ Qltb xmax (fst p) = false)
  /\ (exists xmin, np_min x = Ok xmin /\ Qltb (fst p) xmin = false)
  /\ (exists ymax, np_max y = Ok ymax /\ Qltb ymax (snd p) = false)
  /\ (exists ymin, np_min y = Ok ymin /\ Qltb (snd p) ymin = false)
  /\ first_close x (fst p) = Ok i
  /\ first_close y (snd p) = Ok j
  /\ grid_at grid i j = Ok false.

(** [i] is the first index of [axis] whose coordinate is within the fixed
    tolerance 1 + 1e-5 |v| of [v]. *)
Definition first_within_fixed_tolerance (axis : list Q) (v : Q) (i : nat)
  : Prop :=
  (exists a, nth_error axis i = Some a
             /\ Qabs (a - v) <= 1 + rtol * Qabs v)
  /\ (forall i' a', (i' < i)%nat -> nth_error axis i' = Some a' ->
        ~ Qabs (a' - v) <= 1 + rtol * Qabs v).

(** The square (0,0)-(4,4) whose right part, x in [9/4, 4], is an obstacle
    at full height; a port without orientation at (2, 1), left of the
    obstacle, and one at (0, 3). *)
Definition blocked_square : Component :=
  mkComponent ((0, 0), (4, 4)) [((9 # 4, 0), (4, 4))].

Definition inner_port : Port := mkPort (2, 1) None.
Definition corner_port : Port := mkPort (0, 3) None.

(** ** Configuration errors, in the words of the specification *)

(** The five recognised orientations. *)
Definition recognized (o : option Q) : Prop :=
  match o with
  | None => True
  | Some a => a == 0 \/ a == 90 \/ a == 180 \/ a == 270
  end.




(** ** A search that cannot reach its end node *)

(** Equality of rationals as written (same numerator and denominator). *)
Definition Q_eqb (a b : Q) : bool :=
  Z.eqb (Qnum a) (Qnum b) && Pos.eqb (Qden a) (Qden b).

Definition point_eqb (p q : point) : bool :=
  Q_eqb (fst p) (fst q) && Q_eqb (snd p) (snd q).

Definition on_lattice (lattice : list point) (p : point) : bool :=
  existsb (point_eqb p) lattice.

(** From the position [p] the search goes on inside [lattice]: [p] is not
    the position of the end node, and the neighbours of a node at [p] are
    generated without exception, are at least one, and are all in
    [lattice]. *)
Definition goes_on (grid : grid_t) (x y : list Q) (resolution : Q)
    (end_node : Node) (lattice : list point) (p : point) : bool :=
  let probe := new_Node 0 None p in
  negb (reached_end end_node probe)
  && match _generate_neighbours probe grid x y resolution 0 with
     | Ok (nb :: nbs) =>
         forallb (fun n => on_lattice lattice (position n)) (nb :: nbs)
     | _ => false
     end.

(** An output port whose end node, at resolution 2, is off the positions
    the search can visit from the west port: x = 7 against even x. *)
Definition odd_port : Port := mkPort (9, 5) (Some 180).

Definition even_lattice : list point :=
  list_prod [0; 2; 4; 6; 8; 10] [1; 3; 5; 7; 9].

(** ** Parent chains *)

(** Every node of the chain of [n] that has a parent sits one move from
    that parent, on a candidate position that was kept. *)
Fixpoint well_linked (grid : grid_t) (x y : list Q) (resolution : Q)
    (n : Node) : Prop :=
  match n with
  | mkNode _ par pos _ _ _ =>
      match par with
      | None => True
      | Some p =>
          (exists mv, In mv (moves resolution)
             /\ pos = (fst (position p) + fst mv, snd (position p) + snd mv))
          /\ (exists i j, candidate_kept grid x y pos i j)
          /\ well_linked grid x y resolution p
      end
  end.

(** The node at the top of the parent chain. *)
Fixpoint root (n : Node) : Node :=
  match n with
  | mkNode i par pos g0 h0 f0 =>
      match par with
      | None => mkNode i None pos g0 h0 f0
      | Some p => root p
      end
  end.

(** Each point of the list is the one before it moved by one of the four
    moves. *)
Fixpoint stepwise (resolution : Q) (l : list point) : Prop :=
  match l with
  | p :: (q :: _) as rest =>
      (exists mv, In mv (moves resolution)
         /\ q = (fst p + fst mv, snd p + snd mv))
      /\ stepwise resolution rest
  | _ => True
  end.

(** Each point of the list passed the bounds check and the occupancy
    lookup. *)
Definition all_kept (grid : grid_t) (x y : list Q) (l : list point) : Prop :=
  Forall (fun p => exists i j, candidate_kept grid x y p i j) l.

(** ** Node identities *)

(** The identities in the two lists are pairwise distinct, all below the
    allocation counter, and the lists hold one node per identity allocated
    to the search. *)
Definition identities_ok (s : state) : Prop :=
  NoDup (map nid (open_list s ++ closed s))
  /\ (forall n, In n (open_list s ++ closed s) -> (nid n < fresh s)%nat)
  /\ (length (open_list s ++ closed s) + 1 = fresh s)%nat.


(** ** Rasterisation, cell by cell *)

(** The cell of index [(i, j)] is in the slice marked for the reference
    with bounding box [rb], on the axes [x0] and [y0]. *)
Definition in_reference_slice (x0 y0 : list Q) (i j : nat) (rb : bbox_t)
  : bool :=
  in_slice (abs_argmin x0 (fst (fst rb))) (abs_argmin x0 (fst (snd rb))) i
  && in_slice (abs_argmin y0 (snd (fst rb))) (abs_argmin y0 (snd (snd rb))) j.

(** A layout with two obstacles. *)
Definition two_blocks : Component :=
  mkComponent ((0, 0), (10, 10)) [((1, 1), (4, 4)); ((6, 2), (9, 8))].

(** Two ports facing each other two units apart: at resolution 1 both
    anchors fall on (1, 5). *)
Definition near_port : Port := mkPort (2, 5) (Some 180).

(** ** How the call can end *)

(** The three ways the loop can be left: StopIteration out of neighbour
    generation, the waypoint route through a node at the coordinate of the
    end node, and the warning with the Manhattan route. *)
Definition ending (input_port output_port : Port)
    (cross_section : CrossSection) (end_node : Node) (o : outcome) : Prop :=
  o = Raised StopIteration
  \/ (exists cur,
        reached_end end_node cur = true
        /\ o = Returned []
                 (get_route_from_waypoints
                    (waypoints input_port output_port cur) cross_section))
  \/ o = Returned [fallback_warning]
           (route_manhattan input_port output_port cross_section).

(** * Properties *)

(** ** Comparisons *)

Lemma Qltb_lt (a b : Q) : Qltb a b = true <-> a < b.
Proof.
  unfold Qltb. rewrite negb_true_iff. split; intro H.
  - apply Qnot_le_lt. intro Hle. apply Qle_bool_iff in Hle. congruence.
  - destruct (Qle_bool b a) eqn:E; [|reflexivity].
    apply Qle_bool_iff in E. exfalso. exact (Qlt_not_le _ _ H E).
Qed.

Lemma Qltb_ge (a b : Q) : Qltb a b = false <-> b <= a.
Proof.
  unfold Qltb. rewrite negb_false_iff. apply Qle_bool_iff.
Qed.

(** ** The loop over the neighbours *)

Lemma for_each_tt {A : Type} (l : list A) (body : A -> flow) :
  for_each l body = tt.
Proof. destruct (for_each l body). reflexivity. Qed.


(** Neither inner loop has an effect: the neighbour is always appended. *)
Lemma visit_neighbour_appends resolution end_node cur cl ol nb :
  visit_neighbour resolution end_node cur cl ol nb
  = ol ++ [with_costs resolution end_node cur nb].
Proof.
  unfold visit_neighbour, with_costs.
  destruct (for_each cl _). destruct (for_each ol _). reflexivity.
Qed.

Lemma fold_visit_neighbour resolution end_node cur cl nbs : forall ol,
  fold_left (visit_neighbour resolution end_node cur cl) nbs ol
  = ol ++ map (with_costs resolution end_node cur) nbs.
Proof.
  induction nbs as [|nb nbs IH]; intro ol; simpl.
  - now rewrite app_nil_r.
  - rewrite IH, visit_neighbour_appends, <- app_assoc. reflexivity.
Qed.

(** ** The selected node *)

Lemma select_current_lt (ol : list Node) :
  ol <> [] -> (select_current ol < length ol)%nat.
Proof.
  intro Hne. unfold select_current.
  assert (H0 : (0 < length ol)%nat) by (destruct ol; simpl; [congruence|lia]).
  assert (Hseq : forall i, In i (seq 0 (length ol)) -> (i < length ol)%nat)
    by (intros i Hi; apply in_seq in Hi; lia).
  revert Hseq H0. generalize (seq 0 (length ol)) as idx. generalize O as ci.
  intros ci idx. revert ci.
  induction idx as [|i idx IH]; intros ci Hseq Hci; simpl; [exact Hci|].
  apply IH.
  - intros j Hj. apply Hseq. now right.
  - destruct (Qltb _ _); [apply Hseq; now left | exact Hci].
Qed.

Lemma select_current_some (ol : list Node) :
  ol <> [] ->
  exists cur, nth_error ol (select_current ol) = Some cur /\ In cur ol.
Proof.
  intro Hne. pose proof (select_current_lt ol Hne) as Hlt.
  destruct (nth_error ol (select_current ol)) as [cur|] eqn:E.
  - exists cur. split; [reflexivity|]. eapply nth_error_In; eauto.
  - apply nth_error_None in E. lia.
Qed.

Lemma pop_at_incl {A : Type} (i : nat) (l : list A) (a : A) :
  In a (pop_at i l) -> In a l.
Proof.
  unfold pop_at. intro H. apply in_app_or in H. destruct H as [H|H].
  - rewrite <- (firstn_skipn i l). apply in_or_app. now left.
  - rewrite <- (firstn_skipn (S i) l). apply in_or_app. now right.
Qed.

(** ** The loop and its iterates *)

Section LoopFacts.

Variables (grid : grid_t) (x y : list Q) (resolution : Q).
Variables (input_port output_port : Port) (cross_section : CrossSection).
Variable end_node : Node.

Let loop := astar_loop grid x y resolution input_port output_port
              cross_section end_node.
Let body := astar_body grid x y resolution input_port output_port
              cross_section end_node.
Let iter := iterate grid x y resolution input_port output_port
              cross_section end_node.

Lemma loop_after_iterate : forall k s0 s n,
  iter k s0 = Some s -> loop (k + n)%nat s0 = loop n s.
Proof.
  induction k as [|k IH]; intros s0 s n H; simpl in *.
  - now inversion H.
  - destruct (open_list s0) eqn:Eo; [discriminate|].
    destruct (astar_body _ _ _ _ _ _ _ _ s0) eqn:Eb; try discriminate.
    now apply IH.
Qed.

Lemma iterate_snoc : forall k s0 s s',
  iter k s0 = Some s -> open_list s <> [] -> body s = Again s' ->
  iter (S k) s0 = Some s'.
Proof.
  induction k as [|k IH]; intros s0 s s' H Hne Hb.
  - simpl in H. inversion H; subst. simpl.
    destruct (open_list s); [congruence|].
    unfold body in Hb. now rewrite Hb.
  - simpl in H. simpl.
    destruct (open_list s0) eqn:Eo; [discriminate|].
    destruct (astar_body _ _ _ _ _ _ _ _ s0) eqn:Eb; try discriminate.
    specialize (IH _ _ _ H Hne Hb). simpl in IH. exact IH.
Qed.

Lemma loop_exhausted : forall n s,
  open_list s = [] ->
  loop n s = Some (Returned [fallback_warning]
                     (route_manhattan input_port output_port
                        cross_section)).
Proof.
  intros n s H. destruct n; simpl; now rewrite H.
Qed.

Lemma loop_reached : forall n s cur,
  nth_error (open_list s) (select_current (open_list s)) = Some cur ->
  reached_end end_node cur = true ->
  loop (S n) s
  = Some (Returned []
            (get_route_from_waypoints
               (waypoints input_port output_port cur) cross_section)).
Proof.
  intros n s cur Hcur Hend. simpl.
  destruct (open_list s) eqn:Eo.
  - destruct (select_current []); discriminate.
  - unfold astar_body. rewrite Eo, Hcur, Hend. reflexivity.
Qed.

End LoopFacts.


Lemma astar_routing_setup_ok fuel c ip op r cs kw grid x y st en :
  setup c ip op r = Ok (grid, x, y, st, en) ->
  astar_routing fuel c ip op r cs kw
  = astar_loop grid x y r ip op (get_cross_section cs kw) en fuel
      (initial_state st).
Proof.
  unfold setup, astar_routing, bind. intro H.
  destruct (_generate_grid c r) as [[[g0 x0] y0]|]; [|discriminate].
  destruct (orientation_step r (orientation ip)); [|discriminate].
  destruct (orientation_step r (orientation op)); [|discriminate].
  now inversion H.
Qed.

Lemma astar_routing_setup_err fuel c ip op r cs kw e :
  setup c ip op r = Err e ->
  astar_routing fuel c ip op r cs kw = Some (Raised e).
Proof.
  unfold setup, astar_routing, bind. intro H.
  destruct (_generate_grid c r) as [[[g0 x0] y0]|]; [|now inversion H].
  destruct (orientation_step r (orientation ip)); [|now inversion H].
  destruct (orientation_step r (orientation op)); [|now inversion H].
  discriminate.
Qed.

(** Evaluation of a closed left-hand side, leaving the right-hand side to
    be read off. *)
Ltac by_evaluation :=
  match goal with
  | |- ?l = _ =>
      let v := eval vm_compute in l in
      transitivity v; [vm_compute; reflexivity | reflexivity]
  end.


(** ** Path reconstruction *)

(** C8. When the node taken from the open list has the coordinate of the
    end node, the call returns the route built from these waypoints: the
    centre of the input port, then the positions found by walking the parent
    links from that node up to the root, in reverse order, then the centre
    of the output port.  The port centres are the true ones, not the
    positions of the start and end nodes. *)
Theorem success_returns_reversed_parent_chain :
  forall c ip op r cs kw grid x y st en k s cur n,
    setup c ip op r = Ok (grid, x, y, st, en) ->
    iterate grid x y r ip op (get_cross_section cs kw) en k
      (initial_state st) = Some s ->
    nth_error (open_list s) (select_current (open_list s)) = Some cur ->
    reached_end en cur = true ->
    astar_routing (k + S n) c ip op r cs kw
    = Some (Returned []
              (get_route_from_waypoints
                 (center ip :: rev (trace_back cur) ++ [center op])
                 (get_cross_section cs kw))).
Proof.
  intros c ip op r cs kw grid x y st en k s cur n Hs Hit Hcur Hend.
  rewrite (astar_routing_setup_ok _ _ _ _ _ _ _ _ _ _ _ _ Hs).
  rewrite (loop_after_iterate _ _ _ _ _ _ _ _ _ _ _ _ Hit).
  now apply loop_reached.
Qed.

Lemma success_returns_reversed_parent_chain_witness :
  astar_routing 9 empty_square west_port east_port 1 "strip" []
  = Some (Returned []
            (get_route_from_waypoints
               [(0, 5); (1, 5); (2, 5); (3, 5); (4, 5); (5, 5); (6, 5);
                (7, 5); (8, 5); (9, 5); (10, 5)]
               (get_cross_section "strip" []))).
Proof.
  refine (eq_trans
            (success_returns_reversed_parent_chain empty_square west_port
               east_port 1 "strip" [] _ _ _ _ _ 8 _ _ 0 _ _ _ _) _).
  - by_evaluation.
  - by_evaluation.
  - by_evaluation.
  - vm_compute. reflexivity.
  - vm_compute. reflexivity.
Defined.

(** ** Exhaustion *)

(** C9. When the open list becomes empty before the end node was reached,
    the call emits the warning and returns what [route_manhattan] gives for
    the two ports and the resolved cross-section. *)
Theorem exhaustion_warns_and_falls_back :
  forall c ip op r cs kw grid x y st en k s n,
    setup c ip op r = Ok (grid, x, y, st, en) ->
    iterate grid x y r ip op (get_cross_section cs kw) en k
      (initial_state st) = Some s ->
    open_list s = [] ->
    astar_routing (k + n) c ip op r cs kw
    = Some (Returned [fallback_warning]
              (route_manhattan ip op (get_cross_section cs kw))).
Proof.
  intros c ip op r cs kw grid x y st en k s n Hs Hit Hopen.
  rewrite (astar_routing_setup_ok _ _ _ _ _ _ _ _ _ _ _ _ Hs).
  rewrite (loop_after_iterate _ _ _ _ _ _ _ _ _ _ _ _ Hit).
  now apply loop_exhausted.
Qed.


Lemma exhaustion_warns_and_falls_back_witness :
  astar_routing 1 empty_square far_port east_port 1 "strip" []
  = Some (Returned [fallback_warning]
            (route_manhattan far_port east_port
               (get_cross_section "strip" []))).
Proof.
  refine (exhaustion_warns_and_falls_back empty_square far_port east_port 1
            "strip" [] _ _ _ _ _ 1 _ 0 _ _ _).
  - by_evaluation.
  - by_evaluation.
  - vm_compute. reflexivity.
Defined.

(** ** Start and end anchoring *)

Lemma py_round_inject_Z (q : Q) (a : Z) : q == inject_Z a -> py_round q = a.
Proof.
  intro H. unfold py_round.
  assert (Hfl : Qfloor q = a) by (rewrite (Qfloor_comp _ _ H); apply Qfloor_Z).
  rewrite Hfl.
  assert (Hlt : Qltb ((q - inject_Z a) * 2) 1 = true).
  { apply Qltb_lt. rewrite H. setoid_replace (inject_Z a - inject_Z a) with 0
      by ring. reflexivity. }
  now rewrite Hlt.
Qed.

Lemma orientation_step_vector r o v :
  orientation_step r o = Ok v -> step_vector r o v.
Proof.
  unfold orientation_step. destruct o as [a|].
  - destruct (Qeq_bool a 0) eqn:E0.
    { intro H; inversion H; subst. apply step_east. now apply Qeq_bool_iff. }
    destruct (Qeq_bool a 90) eqn:E1.
    { intro H; inversion H; subst. apply step_north. now apply Qeq_bool_iff. }
    destruct (Qeq_bool a 180) eqn:E2.
    { intro H; inversion H; subst. apply step_west. now apply Qeq_bool_iff. }
    destruct (Qeq_bool a 270) eqn:E3.
    { intro H; inversion H; subst. apply step_south. now apply Qeq_bool_iff. }
    discriminate.
  - intro H; inversion H; subst. apply step_free.
Qed.

Lemma setup_inv c ip op r grid x y st en :
  setup c ip op r = Ok (grid, x, y, st, en) ->
  exists oi oo,
    _generate_grid c r = Ok (grid, x, y)
    /\ orientation_step r (orientation ip) = Ok oi
    /\ orientation_step r (orientation op) = Ok oo
    /\ st = anchor_node 0 ip oi /\ en = anchor_node 1 op oo.
Proof.
  unfold setup, bind. intro H.
  destruct (_generate_grid c r) as [[[g0 x0] y0]|]; [|discriminate].
  destruct (orientation_step r (orientation ip)) as [oi|]; [|discriminate].
  destruct (orientation_step r (orientation op)) as [oo|]; [|discriminate].
  inversion H; subst. exists oi, oo. repeat split; reflexivity.
Qed.

Lemma rounded_offset_exact p o (a b : Z) :
  port_x p + fst o == inject_Z a -> port_y p + snd o == inject_Z b ->
  fst (rounded_offset p o) == port_x p + fst o
  /\ snd (rounded_offset p o) == port_y p + snd o.
Proof.
  intros Ha Hb. unfold rounded_offset; simpl.
  rewrite (py_round_inject_Z _ _ Ha), (py_round_inject_Z _ _ Hb).
  split; symmetry; assumption.
Qed.

(** C7, as the code has it.  The orientation of each port gives its step
    vector (0 -> +x, 90 -> +y, 180 -> -x, 270 -> -y, none -> (0,0), scaled
    by the resolution), and the start and end nodes sit at the port centre
    moved by that step with each coordinate rounded to the nearest integer.
    When the moved coordinates are integers the rounding changes nothing
    and the node is at the port centre offset by exactly one step. *)
Theorem anchors_are_rounded_offsets :
  forall c ip op r grid x y st en,
    setup c ip op r = Ok (grid, x, y, st, en) ->
    exists oi oo,
      step_vector r (orientation ip) oi
      /\ step_vector r (orientation op) oo
      /\ position st = rounded_offset ip oi
      /\ position en = rounded_offset op oo
      /\ (forall a b : Z,
             port_x ip + fst oi == inject_Z a ->
             port_y ip + snd oi == inject_Z b ->
             fst (position st) == port_x ip + fst oi
             /\ snd (position st) == port_y ip + snd oi)
      /\ (forall a b : Z,
             port_x op + fst oo == inject_Z a ->
             port_y op + snd oo == inject_Z b ->
             fst (position en) == port_x op + fst oo
             /\ snd (position en) == port_y op + snd oo).
Proof.
  intros c ip op r grid x y st en H.
  destruct (setup_inv _ _ _ _ _ _ _ _ _ H)
    as (oi & oo & _ & Hi & Ho & -> & ->).
  exists oi, oo.
  split; [now apply orientation_step_vector|].
  split; [now apply orientation_step_vector|].
  split; [reflexivity|]. split; [reflexivity|].
  split; intros a b Ha Hb; exact (rounded_offset_exact _ _ a b Ha Hb).
Qed.

Lemma anchors_are_rounded_offsets_witness :
  exists oi oo,
    step_vector 1 (orientation west_port) oi
    /\ step_vector 1 (orientation east_port) oo
    /\ rounded_offset west_port oi = (1, 5)
    /\ rounded_offset east_port oo = (9, 5).
Proof.
  destruct (setup empty_square west_port east_port 1)
    as [[[[[grid x] y] st] en]|] eqn:E; [|vm_compute in E; discriminate].
  destruct (anchors_are_rounded_offsets _ _ _ _ _ _ _ _ _ E)
    as (oi & oo & Hi & Ho & _).
  exists oi, oo. split; [exact Hi|]. split; [exact Ho|].
  inversion Hi; subst; inversion Ho; subst;
    try (match goal with H : (0 == _)%Q |- _ => vm_compute in H; discriminate end);
    try (match goal with H : (180 == _)%Q |- _ => vm_compute in H; discriminate end).
  split; vm_compute; reflexivity.
Defined.

(** C7 as stated fails: with resolution 1/4 the start node of a port at
    (0, 5) facing east is at (0, 5), the port centre itself and not the
    centre offset by one step; and a port without orientation centred at
    (1/4, 5) gets its node at (0, 5), not at its centre. *)
Lemma anchor_not_exact_offset :
  orientation_step (1 # 4) (orientation west_port) = Ok (1 # 4, 0)
  /\ position (anchor_node 0 west_port (1 # 4, 0)) = (0, 5)
  /\ ~ fst (position (anchor_node 0 west_port (1 # 4, 0)))
       == port_x west_port + (1 # 4)
  /\ orientation_step (1 # 4) (orientation free_port) = Ok (0, 0)
  /\ position (anchor_node 0 free_port (0, 0)) = (0, 5)
  /\ ~ fst (position (anchor_node 0 free_port (0, 0))) == port_x free_port.
Proof.
  repeat split; try (vm_compute; reflexivity);
    intro H; vm_compute in H; discriminate.
Qed.

(** ** What [_generate_neighbours] returns *)

Lemma neighbours_loop_all (P : Node -> Prop) cur grid x y :
  forall deltas fresh acc l,
    (forall i mv, In mv deltas ->
       P (new_Node i (Some cur)
            (fst (position cur) + fst mv, snd (position cur) + snd mv))) ->
    Forall P acc ->
    neighbours_loop deltas cur grid x y fresh acc = Ok l ->
    Forall P l.
Proof.
  induction deltas as [|mv deltas IH]; intros fresh acc l Hnew Hacc H.
  - simpl in H. inversion H; subst. exact Hacc.
  - assert (Hrest : forall i mv', In mv' deltas ->
              P (new_Node i (Some cur)
                   (fst (position cur) + fst mv',
                    snd (position cur) + snd mv')))
      by (intros i mv' Hin; apply Hnew; now right).
    simpl in H. unfold bind in H.
    destruct (np_max x); [|discriminate].
    destruct (Qltb _ _); [now apply (IH _ _ _ Hrest Hacc H)|].
    destruct (np_min x); [|discriminate].
    destruct (Qltb _ _); [now apply (IH _ _ _ Hrest Hacc H)|].
    destruct (np_max y); [|discriminate].
    destruct (Qltb _ _); [now apply (IH _ _ _ Hrest Hacc H)|].
    destruct (np_min y); [|discriminate].
    destruct (Qltb _ _); [now apply (IH _ _ _ Hrest Hacc H)|].
    destruct (first_close x _); [|discriminate].
    destruct (first_close y _); [|discriminate].
    destruct (grid_at grid _ _) as [occ|]; [|discriminate].
    destruct occ; [now apply (IH _ _ _ Hrest Hacc H)|].
    apply (IH _ _ _ Hrest) in H; [exact H|].
    apply Forall_app. split; [exact Hacc|].
    constructor; [|constructor]. apply Hnew. now left.
Qed.

Lemma generate_neighbours_all (P : Node -> Prop) cur grid x y r fresh l :
  (forall i mv, In mv (moves r) ->
     P (new_Node i (Some cur)
          (fst (position cur) + fst mv, snd (position cur) + snd mv))) ->
  _generate_neighbours cur grid x y r fresh = Ok l ->
  Forall P l.
Proof.
  intros Hnew H. unfold _generate_neighbours in H.
  eapply neighbours_loop_all; eauto.
Qed.

Lemma generate_neighbours_parent cur grid x y r fresh l :
  _generate_neighbours cur grid x y r fresh = Ok l ->
  Forall (fun nb => parent nb = Some cur) l.
Proof.
  apply generate_neighbours_all. intros; reflexivity.
Qed.

(** ** One run of the loop body *)

Section BodyFacts.

Variables (grid : grid_t) (x y : list Q) (resolution : Q).
Variables (input_port output_port : Port) (cross_section : CrossSection).
Variable end_node : Node.

Lemma astar_body_again s s' :
  astar_body grid x y resolution input_port output_port cross_section
    end_node s = Again s' ->
  exists cur nbs,
    nth_error (open_list s) (select_current (open_list s)) = Some cur
    /\ reached_end end_node cur = false
    /\ _generate_neighbours cur grid x y resolution (fresh s) = Ok nbs
    /\ s' = mkState
              (pop_at (select_current (open_list s)) (open_list s)
                 ++ map (with_costs resolution end_node cur) nbs)
              (closed s ++ [cur])
              (fresh s + length nbs).
Proof.
  unfold astar_body. intro H.
  destruct (nth_error _ _) as [cur|]; [|discriminate].
  destruct (reached_end end_node cur) eqn:Eend; [discriminate|].
  destruct (_generate_neighbours _ _ _ _ _ _) as [nbs|] eqn:Enb;
    [|discriminate].
  exists cur, nbs. rewrite fold_visit_neighbour in H.
  inversion H. repeat split; assumption || reflexivity.
Qed.

(** A property of the states that every run of the body keeps holds
    after any number of runs. *)
Lemma iterate_invariant (Inv : state -> Prop) :
  (forall s s',
      Inv s ->
      astar_body grid x y resolution input_port output_port cross_section
        end_node s = Again s' -> Inv s') ->
  forall k s0 s,
    Inv s0 ->
    iterate grid x y resolution input_port output_port cross_section
      end_node k s0 = Some s ->
    Inv s.
Proof.
  intros Hstep. induction k as [|k IH]; intros s0 s H0 H; simpl in H.
  - now inversion H; subst.
  - destruct (open_list s0); [discriminate|].
    destruct (astar_body _ _ _ _ _ _ _ _ s0) eqn:Eb; try discriminate.
    eapply IH; [|exact H]. eapply Hstep; eauto.
Qed.

End BodyFacts.

(** ** Costs *)

Lemma costs_ok_with_costs r st en cur nb :
  costs_ok r st en cur -> parent nb = Some cur ->
  costs_ok r st en (with_costs r en cur nb).
Proof.
  intros (Hg & _ & _) Hp. unfold costs_ok, with_costs.
  destruct nb as [i par pos g0 h0 f0]. simpl in Hp. subst par.
  split; [|split; [reflexivity|split; reflexivity]].
  change (g cur + r = accumulated r (depth cur) + r).
  now rewrite Hg.
Qed.

Lemma costs_ok_step grid x y r ip op xs st en s s' :
  Forall (costs_ok r st en) (open_list s ++ closed s) ->
  astar_body grid x y r ip op xs en s = Again s' ->
  Forall (costs_ok r st en) (open_list s' ++ closed s').
Proof.
  intros Hinv Hb.
  destruct (astar_body_again _ _ _ _ _ _ _ _ _ _ Hb)
    as (cur & nbs & Hcur & _ & Hnb & ->).
  rewrite Forall_forall in Hinv.
  assert (Hc : costs_ok r st en cur).
  { apply Hinv. apply in_or_app. left. eapply nth_error_In; eauto. }
  cbn [open_list closed]. rewrite Forall_forall. intros n Hn.
  apply in_app_or in Hn. destruct Hn as [Hn|Hn].
  - apply in_app_or in Hn. destruct Hn as [Hn|Hn].
    + apply Hinv. apply in_or_app. left. eapply pop_at_incl; eauto.
    + apply in_map_iff in Hn. destruct Hn as (nb & <- & Hin).
      apply costs_ok_with_costs; [exact Hc|].
      pose proof (generate_neighbours_parent _ _ _ _ _ _ _ Hnb) as Hp.
      rewrite Forall_forall in Hp. now apply Hp.
  - apply in_app_or in Hn. destruct Hn as [Hn|[<-|[]]].
    + apply Hinv. apply in_or_app. now right.
    + exact Hc.
Qed.

(** C6, as the code has it.  Every node the search holds, after any number
    of expansions, has its costs set as follows.  A node with a parent has
    g equal to the g of the parent plus the resolution, and h equal to the
    squared Euclidean distance, in layout coordinates, from its position to
    the position of the end node; the only node without a parent is the
    start node, whose g, h and f are 0.  So g of every node is the
    resolution added to 0 once per move from the start node, and f of every
    node is g + h of that node.  Each equation is between the values the
    code computes, by the operations the code performs. *)
Theorem costs_of_search_nodes :
  forall c ip op r cs kw grid x y st en k s n,
    setup c ip op r = Ok (grid, x, y, st, en) ->
    iterate grid x y r ip op (get_cross_section cs kw) en k
      (initial_state st) = Some s ->
    In n (open_list s ++ closed s) ->
    g n = accumulated r (depth n)
    /\ f n = g n + h n
    /\ match parent n with
       | None => n = st
       | Some p =>
           g n = g p + r
           /\ h n = squared_distance (position n) (position en)
       end.
Proof.
  intros c ip op r cs kw grid x y st en k s n Hs Hit Hn.
  destruct (setup_inv _ _ _ _ _ _ _ _ _ Hs)
    as (oi & oo & _ & _ & _ & Hst & _).
  assert (Hinv : Forall (costs_ok r st en) (open_list s ++ closed s)).
  { refine (iterate_invariant grid x y r ip op (get_cross_section cs kw) en
              (fun s => Forall (costs_ok r st en) (open_list s ++ closed s))
              _ k (initial_state st) s _ Hit).
    - intros s1 s2. apply costs_ok_step.
    - cbn. constructor; [|constructor]. subst st.
      unfold costs_ok; cbn. repeat split; reflexivity. }
  rewrite Forall_forall in Hinv. exact (Hinv n Hn).
Qed.

Lemma costs_of_search_nodes_witness :
  let st := mkNode 0 None (2, 5) 0 0 0 in
  let en := mkNode 1 None (8, 5) 0 0 0 in
  let n := mkNode 5 (Some st) (4, 5) 2 16 18 in
  g n = accumulated 2 (depth n)
  /\ f n = g n + h n
  /\ g n = g st + 2
  /\ h n = squared_distance (position n) (position en).
Proof.
  intros st en n.
  refine (costs_of_search_nodes empty_square west_port east_port 2
            "strip" [] _ _ _ st en 1 _ n _ _ _).
  - by_evaluation.
  - by_evaluation.
  - vm_compute. do 3 right. left. reflexivity.
Defined.

(** C6 as stated fails for the heuristic: it is not in grid units.  On the
    empty square at resolution 2 the end node is at (8, 5), and the node at
    (4, 5) created by the first expansion is two cells away from it: in
    grid units the squared distance is 4, and its h is 16. *)
Lemma heuristic_not_in_grid_units :
  exists grid x y st en s n,
    setup empty_square west_port east_port 2 = Ok (grid, x, y, st, en)
    /\ iterate grid x y 2 west_port east_port (get_cross_section "strip" [])
         en 1 (initial_state st) = Some s
    /\ In n (open_list s)
    /\ position n = (4, 5)
    /\ position en = (8, 5)
    /\ h n = 16
    /\ squared_grid_distance 2 (position n) (position en) == 4
    /\ ~ h n == squared_grid_distance 2 (position n) (position en).
Proof.
  do 7 eexists.
  split; [by_evaluation|].
  split; [by_evaluation|].
  split; [simpl; do 3 right; left; reflexivity|].
  repeat split; try (vm_compute; reflexivity).
  intro H; vm_compute in H; discriminate.
Qed.

(** ** Rasterisation *)

(** C5, evaluated on the walled square at resolution 1.  The wall covers
    x in [4,6] and y in [0,10].  The grid cell of index (5, 0) has the
    coordinate (5.556, 0), which lies inside the wall, and the cell of index
    (4, 9) has the coordinate (4.444, 10), which lies inside it too; both are
    left free, because the slice that is marked stops one short of the index
    nearest to the upper corner. *)
Theorem wall_cells_left_free :
  exists grid x y,
    _generate_grid walled_square 1 = Ok (grid, x, y)
    /\ nth_error x 5 = Some (5556 # 1000)
    /\ nth_error y 0 = Some (0 # 1000)
    /\ 4 <= 5556 # 1000 /\ 5556 # 1000 <= 6
    /\ grid_at grid 5 0 = Ok false
    /\ nth_error x 4 = Some (4444 # 1000)
    /\ nth_error y 9 = Some (10000 # 1000)
    /\ 4 <= 4444 # 1000 /\ 4444 # 1000 <= 6
    /\ grid_at grid 4 9 = Ok false
    /\ grid_at grid 4 8 = Ok true.
Proof.
  do 3 eexists. split; [by_evaluation|].
  repeat split; try (vm_compute; reflexivity);
    vm_compute; discriminate.
Qed.

(** ** The frontier *)

(** C1, evaluated on the walled square at resolution 1 with the west and
    east ports.  After two runs of the loop body the start coordinate (1, 5)
    is in the closed list and is in the open list again.  After seven runs
    the coordinate (4, 5) has been expanded twice (it is twice in the closed
    list) and is in the open list once more, and the open list holds each
    of (3, 4), (3, 5) and (3, 6) twice. *)
Theorem closed_coordinate_reopened :
  exists grid x y st en s2 s7,
    setup walled_square west_port east_port 1 = Ok (grid, x, y, st, en)
    /\ iterate grid x y 1 west_port east_port (get_cross_section "strip" [])
         en 2 (initial_state st) = Some s2
    /\ map position (closed s2) = [(1, 5); (2, 5)]
    /\ map position (open_list s2)
       = [(1, 4); (1, 6); (0, 5); (2, 4); (2, 6); (1, 5); (3, 5)]
    /\ iterate grid x y 1 west_port east_port (get_cross_section "strip" [])
         en 7 (initial_state st) = Some s7
    /\ map position (closed s7)
       = [(1, 5); (2, 5); (3, 5); (4, 5); (4, 4); (4, 6); (4, 5)]
    /\ map position (open_list s7)
       = [(1, 4); (1, 6); (0, 5); (2, 4); (2, 6); (1, 5); (3, 4); (3, 6);
          (2, 5); (3, 5); (4, 3); (3, 4); (4, 5); (4, 7); (3, 6); (4, 4);
          (4, 6); (3, 5)].
Proof.
  do 7 eexists.
  split; [by_evaluation|].
  split; [by_evaluation|].
  split; [vm_compute; reflexivity|].
  split; [vm_compute; reflexivity|].
  split; [by_evaluation|].
  split; vm_compute; reflexivity.
Qed.

(** ** The nearest-cell lookup *)

Lemma np_max_from_in l : forall m, In (np_max_from m l) (m :: l).
Proof.
  induction l as [|a l IH]; intro m; simpl; [now left|].
  destruct (IH (if Qltb m a then a else m)) as [H|H].
  - destruct (Qltb m a); [right; left|left]; exact H.
  - right. right. exact H.
Qed.

Lemma np_min_from_in l : forall m, In (np_min_from m l) (m :: l).
Proof.
  induction l as [|a l IH]; intro m; simpl; [now left|].
  destruct (IH (if Qltb a m then a else m)) as [H|H].
  - destruct (Qltb a m); [right; left|left]; exact H.
  - right. right. exact H.
Qed.

Lemma np_max_in l hi : np_max l = Ok hi -> In hi l.
Proof.
  destruct l as [|a l]; simpl; [discriminate|].
  intro H; inversion H. apply np_max_from_in.
Qed.

Lemma np_min_in l lo : np_min l = Ok lo -> In lo l.
Proof.
  destruct l as [|a l]; simpl; [discriminate|].
  intro H; inversion H. apply np_min_from_in.
Qed.

Lemma np_isclose_within_one (e v : Q) :
  Qabs (e - v) <= 1 -> np_isclose e v 1 = true.
Proof.
  intro H. unfold np_isclose. apply Qle_bool_iff.
  assert (H0 : 0 <= rtol * Qabs v).
  { apply Qmult_le_0_compat; [unfold rtol; discriminate | apply Qabs_nonneg]. }
  lra.
Qed.

Lemma first_close_from_found v l : forall i,
  (exists e, In e l /\ np_isclose e v 1 = true) ->
  exists k, first_close_from i l v = Ok k
            /\ (i <= k)%nat /\ (k < i + length l)%nat.
Proof.
  induction l as [|a l IH]; intros i (e & Hin & He); [destruct Hin|].
  simpl. destruct (np_isclose a v 1) eqn:Ea.
  - exists i. repeat split; lia.
  - destruct Hin as [->|Hin]; [congruence|].
    destruct (IH (S i) (ex_intro _ e (conj Hin He))) as (k & Hk & H1 & H2).
    exists k. repeat split; [exact Hk|lia|lia].
Qed.

(** Between a coordinate below [v] and a coordinate above [v], on an axis
    with spacing at most 2, some coordinate is within 1 of [v]. *)
Lemma close_coordinate_exists (v : Q) : forall l a,
  spacing_at_most 2 (a :: l) ->
  (exists c, In c (a :: l) /\ c <= v) ->
  (exists d, In d (a :: l) /\ v <= d) ->
  exists e, In e (a :: l) /\ Qabs (e - v) <= 1.
Proof.
  induction l as [|b l IH]; intros a Hsp (c & Hc & Hcv) (d & Hd & Hvd).
  - destruct Hc as [<-|[]]. destruct Hd as [<-|[]].
    exists a. split; [now left|]. apply Qabs_Qle_condition. split; lra.
  - destruct Hsp as [Hab Hsp].
    apply Qabs_Qle_condition in Hab. destruct Hab as [Hab1 Hab2].
    destruct (Qlt_le_dec a (v - 1)) as [Hlow|Hlow].
    + (* a is more than 1 below v *)
      assert (Hd' : In d (b :: l)) by (destruct Hd as [<-|Hd]; [lra|exact Hd]).
      destruct (Qlt_le_dec v b) as [Hb|Hb].
      * exists b. split; [right; now left|].
        apply Qabs_Qle_condition. split; lra.
      * destruct (IH b Hsp (ex_intro _ b (conj (or_introl eq_refl) Hb))
                    (ex_intro _ d (conj Hd' Hvd))) as (e & He & Hev).
        exists e. split; [now right|exact Hev].
    + destruct (Qlt_le_dec (v + 1) a) as [Hhigh|Hhigh].
      * (* a is more than 1 above v *)
        assert (Hc' : In c (b :: l))
          by (destruct Hc as [<-|Hc]; [lra|exact Hc]).
        destruct (Qlt_le_dec b v) as [Hb|Hb].
        -- exists b. split; [right; now left|].
           apply Qabs_Qle_condition. split; lra.
        -- destruct (IH b Hsp (ex_intro _ c (conj Hc' Hcv))
                       (ex_intro _ b (conj (or_introl eq_refl) Hb)))
             as (e & He & Hev).
           exists e. split; [now right|exact Hev].
      * exists a. split; [now left|].
        apply Qabs_Qle_condition. split; lra.
Qed.

Lemma first_close_in_bounds (axis : list Q) (v hi lo : Q) :
  spacing_at_most 2 axis ->
  np_max axis = Ok hi -> np_min axis = Ok lo ->
  Qltb hi v = false -> Qltb v lo = false ->
  exists i, first_close axis v = Ok i /\ (i < length axis)%nat.
Proof.
  intros Hsp Hmax Hmin Hhi Hlo.
  apply Qltb_ge in Hhi. apply Qltb_ge in Hlo.
  pose proof (np_max_in _ _ Hmax) as Hin_hi.
  pose proof (np_min_in _ _ Hmin) as Hin_lo.
  destruct axis as [|a l]; [destruct Hin_hi|].
  destruct (close_coordinate_exists v l a Hsp
              (ex_intro _ lo (conj Hin_lo Hlo))
              (ex_intro _ hi (conj Hin_hi Hhi))) as (e & He & Hev).
  destruct (first_close_from_found v (a :: l) 0
              (ex_intro _ e (conj He (np_isclose_within_one _ _ Hev))))
    as (k & Hk & _ & Hlt).
  exists k. split; [exact Hk|exact Hlt].
Qed.

(** X10. On an axis whose consecutive coordinates are at most 2 apart,
    every candidate that passes the bounds check (not above the maximum,
    not below the minimum of the axis) has an axis coordinate within the
    tolerance, so the first-match search returns an index of the axis and
    does not raise. *)
Theorem lookup_succeeds_when_spacing_at_most_2 :
  forall (axis : list Q) (v hi lo : Q),
    spacing_at_most 2 axis ->
    np_max axis = Ok hi -> np_min axis = Ok lo ->
    Qltb hi v = false -> Qltb v lo = false ->
    exists i, first_close axis v = Ok i /\ (i < length axis)%nat.
Proof.
  exact first_close_in_bounds.
Qed.

Lemma lookup_succeeds_when_spacing_at_most_2_witness :
  exists i,
    first_close
      [0; 1111 # 1000; 2222 # 1000; 3333 # 1000; 4444 # 1000; 5556 # 1000;
       6667 # 1000; 7778 # 1000; 8889 # 1000; 10] 5 = Ok i
    /\ (i < 10)%nat.
Proof.
  refine (lookup_succeeds_when_spacing_at_most_2
            [0; 1111 # 1000; 2222 # 1000; 3333 # 1000; 4444 # 1000;
             5556 # 1000; 6667 # 1000; 7778 # 1000; 8889 # 1000; 10]
            5 10 0 _ _ _ _ _).
  - simpl. repeat split; apply Qle_bool_iff; vm_compute; reflexivity.
  - vm_compute. reflexivity.
  - vm_compute. reflexivity.
  - vm_compute. reflexivity.
  - vm_compute. reflexivity.
Defined.

(** C10, evaluated on the empty square at resolution 3 with the west and
    east ports.  The axis of the square (0,0)-(10,10) is 0, 5, 10; the
    candidate 3 passes the bounds check, no coordinate is within the
    tolerance of it, and the first-match search raises StopIteration; the
    call of the routing function ends with that exception in its first
    expansion. *)
Theorem lookup_fails_on_coarse_axis :
  exists grid x y,
    _generate_grid empty_square 3 = Ok (grid, x, y)
    /\ x = [0 # 1000; 5000 # 1000; 10000 # 1000]
    /\ np_max x = Ok (10000 # 1000) /\ np_min x = Ok (0 # 1000)
    /\ Qltb (10000 # 1000) 3 = false /\ Qltb 3 (0 # 1000) = false
    /\ first_close x 3 = Err StopIteration
    /\ astar_routing 1 empty_square west_port east_port 3 "strip" []
       = Some (Raised StopIteration).
Proof.
  do 3 eexists. split; [by_evaluation|].
  repeat split; vm_compute; reflexivity.
Qed.

(** ** The tolerance of the lookup *)

Lemma neighbours_loop_kept (P : Node -> Prop) cur grid x y :
  forall deltas fresh acc l,
    (forall k mv i j, In mv deltas ->
       candidate_kept grid x y
         (fst (position cur) + fst mv, snd (position cur) + snd mv) i j ->
       P (new_Node k (Some cur)
            (fst (position cur) + fst mv, snd (position cur) + snd mv))) ->
    Forall P acc ->
    neighbours_loop deltas cur grid x y fresh acc = Ok l ->
    Forall P l.
Proof.
  induction deltas as [|mv deltas IH]; intros fresh acc l Hnew Hacc H.
  - simpl in H. inversion H; subst. exact Hacc.
  - assert (Hrest : forall k mv' i j, In mv' deltas ->
              candidate_kept grid x y
                (fst (position cur) + fst mv', snd (position cur) + snd mv')
                i j ->
              P (new_Node k (Some cur)
                   (fst (position cur) + fst mv',
                    snd (position cur) + snd mv')))
      by (intros k mv' i j Hin; apply Hnew; now right).
    simpl in H. unfold bind in H.
    destruct (np_max x) as [xmax|] eqn:Exmax; [|discriminate].
    destruct (Qltb xmax _) eqn:E1; [now apply (IH _ _ _ Hrest Hacc H)|].
    destruct (np_min x) as [xmin|] eqn:Exmin; [|discriminate].
    destruct (Qltb _ xmin) eqn:E2; [now apply (IH _ _ _ Hrest Hacc H)|].
    destruct (np_max y) as [ymax|] eqn:Eymax; [|discriminate].
    destruct (Qltb ymax _) eqn:E3; [now apply (IH _ _ _ Hrest Hacc H)|].
    destruct (np_min y) as [ymin|] eqn:Eymin; [|discriminate].
    destruct (Qltb _ ymin) eqn:E4; [now apply (IH _ _ _ Hrest Hacc H)|].
    destruct (first_close x _) as [i|] eqn:Ei; [|discriminate].
    destruct (first_close y _) as [j|] eqn:Ej; [|discriminate].
    destruct (grid_at grid i j) as [occ|] eqn:Eg; [|discriminate].
    destruct occ; [now apply (IH _ _ _ Hrest Hacc H)|].
    apply (IH _ _ _ Hrest) in H; [exact H|].
    apply Forall_app. split; [exact Hacc|].
    constructor; [|constructor]. apply (Hnew fresh mv i j); [now left|].
    unfold candidate_kept; cbn [fst snd].
    repeat split; eauto.
Qed.

Lemma first_close_from_spec v axis : forall i0 k,
  first_close_from i0 axis v = Ok k ->
  (i0 <= k)%nat
  /\ (exists a, nth_error axis (k - i0) = Some a /\ np_isclose a v 1 = true)
  /\ (forall i' a', (i' < k - i0)%nat -> nth_error axis i' = Some a' ->
        np_isclose a' v 1 = false).
Proof.
  induction axis as [|a axis IH]; intros i0 k H; simpl in H; [discriminate|].
  destruct (np_isclose a v 1) eqn:Ea.
  - inversion H; subst. rewrite Nat.sub_diag.
    split; [lia|]. split; [exists a; split; [reflexivity|exact Ea]|].
    intros i' a' Hlt. lia.
  - destruct (IH _ _ H) as (Hle & (b & Hb & Hcl) & Hfirst).
    split; [lia|].
    replace (k - i0)%nat with (S (k - S i0)) by lia.
    split; [exists b; split; [exact Hb|exact Hcl]|].
    intros i' a' Hlt Hnth. destruct i' as [|i'].
    + simpl in Hnth. inversion Hnth; subst. exact Ea.
    + simpl in Hnth. apply (Hfirst i' a'); [lia|exact Hnth].
Qed.

Lemma first_close_fixed_tolerance axis v i :
  first_close axis v = Ok i -> first_within_fixed_tolerance axis v i.
Proof.
  unfold first_close. intro H.
  destruct (first_close_from_spec v axis 0 i H) as (_ & (a & Ha & Hcl) & Hf).
  rewrite Nat.sub_0_r in Ha, Hf.
  split.
  - exists a. split; [exact Ha|]. unfold np_isclose in Hcl.
    apply Qle_bool_iff in Hcl. exact Hcl.
  - intros i' a' Hlt Hnth Hle.
    specialize (Hf i' a' Hlt Hnth). unfold np_isclose in Hf.
    apply Qle_bool_iff in Hle. congruence.
Qed.

(** X9. The cell of a neighbour that is kept was looked up as follows: on
    each axis the index used is the first one whose coordinate is within
    1 + 1e-5 |v| of the candidate coordinate v, and the cell found there is
    free.  The resolution does not enter the lookup. *)
Theorem neighbour_lookup_uses_fixed_tolerance :
  forall cur grid x y resolution fresh l n,
    _generate_neighbours cur grid x y resolution fresh = Ok l ->
    In n l ->
    exists i j,
      first_within_fixed_tolerance x (fst (position n)) i
      /\ first_within_fixed_tolerance y (snd (position n)) j
      /\ grid_at grid i j = Ok false.
Proof.
  intros cur grid x y resolution fresh l n H Hin.
  unfold _generate_neighbours in H.
  pose proof (neighbours_loop_kept
                (fun n => exists i j,
                     first_within_fixed_tolerance x (fst (position n)) i
                     /\ first_within_fixed_tolerance y (snd (position n)) j
                     /\ grid_at grid i j = Ok false)
                cur grid x y (moves resolution) fresh [] l) as HP.
  assert (HF : Forall (fun n => exists i j,
                     first_within_fixed_tolerance x (fst (position n)) i
                     /\ first_within_fixed_tolerance y (snd (position n)) j
                     /\ grid_at grid i j = Ok false) l).
  { apply HP; [|constructor|exact H].
    intros k mv i j _ (_ & _ & _ & _ & Hi & Hj & Hg).
    exists i, j. cbn [position new_Node fst snd].
    split; [now apply first_close_fixed_tolerance|].
    split; [now apply first_close_fixed_tolerance|exact Hg]. }
  rewrite Forall_forall in HF. exact (HF n Hin).
Qed.

Lemma neighbour_lookup_uses_fixed_tolerance_witness :
  exists i j,
    first_within_fixed_tolerance [0; 1; 2] 1 i
    /\ first_within_fixed_tolerance [0; 1; 2] 0 j
    /\ grid_at (repeat (repeat false 3) 3) i j = Ok false.
Proof.
  refine (neighbour_lookup_uses_fixed_tolerance
            (mkNode 0 None (1, 1) 0 0 0) (repeat (repeat false 3) 3)
            [0; 1; 2] [0; 1; 2] 1 2 _
            (mkNode 2 (Some (mkNode 0 None (1, 1) 0 0 0)) (1, 0) 0 0 0)
            _ _).
  - by_evaluation.
  - left. reflexivity.
Defined.

(** C3, evaluated on the blocked square at resolution 1/2.  The obstacle
    covers x in [9/4, 4] at full height, and the start node is at (2, 1).
    The first expansion keeps the candidate (5/2, 1), which lies strictly
    inside the obstacle.  The cell nearest to it has index (4, 2) and is
    occupied; the lookup with the fixed tolerance 1 takes the first
    coordinate within 1 on each axis, 1.714 for x and 0 for y, and reads
    the cell of index (3, 0), which lies outside the obstacle and is
    free. *)
Theorem candidate_inside_obstacle_is_kept :
  exists grid x y st en s,
    setup blocked_square inner_port corner_port (1 # 2)
    = Ok (grid, x, y, st, en)
    /\ x = [0 # 1000; 571 # 1000; 1143 # 1000; 1714 # 1000; 2286 # 1000;
            2857 # 1000; 3429 # 1000; 4000 # 1000]
    /\ y = x
    /\ position st = (2, 1)
    /\ iterate grid x y (1 # 2) inner_port corner_port
         (get_cross_section "strip" []) en 1 (initial_state st) = Some s
    /\ map position (open_list s)
       = [(2, 1 # 2); (2, 3 # 2); (3 # 2, 1); (5 # 2, 1)]
    /\ 9 # 4 < 5 # 2 /\ 5 # 2 < 4 /\ 0 < 1 /\ 1 < 4
    /\ abs_argmin x (5 # 2) = 4%nat /\ abs_argmin y 1 = 2%nat
    /\ grid_at grid 4 2 = Ok true
    /\ first_close x (5 # 2) = Ok 3%nat /\ first_close y 1 = Ok 0%nat
    /\ grid_at grid 3 0 = Ok false.
Proof.
  do 6 eexists.
  split; [by_evaluation|].
  split; [reflexivity|].
  split; [reflexivity|].
  split; [reflexivity|].
  split; [by_evaluation|].
  repeat split; vm_compute; reflexivity.
Qed.

(** ** Configuration errors *)







Lemma orientation_step_unrecognized (r : Q) (o : option Q) :
  ~ recognized o -> orientation_step r o = Err KeyError.
Proof.
  destruct o as [a|]; simpl; [|tauto]. intro H.
  destruct (Qeq_bool a 0) eqn:E0;
    [exfalso; apply H; left; now apply Qeq_bool_iff|].
  destruct (Qeq_bool a 90) eqn:E1;
    [exfalso; apply H; right; left; now apply Qeq_bool_iff|].
  destruct (Qeq_bool a 180) eqn:E2;
    [exfalso; apply H; right; right; left; now apply Qeq_bool_iff|].
  destruct (Qeq_bool a 270) eqn:E3;
    [exfalso; apply H; right; right; right; now apply Qeq_bool_iff|].
  reflexivity.
Qed.





(** ** Searches that never leave the loop *)

Lemma Q_eqb_eq (a b : Q) : Q_eqb a b = true -> a = b.
Proof.
  unfold Q_eqb. intro H. apply andb_prop in H. destruct H as [Hn Hd].
  apply Z.eqb_eq in Hn. apply Pos.eqb_eq in Hd.
  destruct a, b; simpl in *; congruence.
Qed.

Lemma point_eqb_eq (p q : point) : point_eqb p q = true -> p = q.
Proof.
  unfold point_eqb. intro H. apply andb_prop in H. destruct H as [H1 H2].
  apply Q_eqb_eq in H1. apply Q_eqb_eq in H2.
  destruct p, q; simpl in *; congruence.
Qed.

Lemma on_lattice_in lattice p : on_lattice lattice p = true -> In p lattice.
Proof.
  unfold on_lattice. intro H. apply existsb_exists in H.
  destruct H as (q & Hq & Heq). apply point_eqb_eq in Heq. now subst.
Qed.

(** The positions of the neighbours depend on the position of the current
    node only, not on its identity, costs or parent. *)
Lemma neighbours_loop_positions grid x y : forall deltas cur cur' fresh fresh'
    acc acc',
  position cur = position cur' ->
  map position acc = map position acc' ->
  match neighbours_loop deltas cur grid x y fresh acc,
        neighbours_loop deltas cur' grid x y fresh' acc' with
  | Ok l, Ok l' => map position l = map position l'
  | Err e, Err e' => e = e'
  | _, _ => False
  end.
Proof.
  induction deltas as [|mv deltas IH];
    intros cur cur' fresh fresh' acc acc' Hpos Hacc.
  - simpl. exact Hacc.
  - simpl. rewrite <- Hpos. unfold bind.
    destruct (np_max x); [|reflexivity].
    destruct (Qltb _ _); [now apply IH|].
    destruct (np_min x); [|reflexivity].
    destruct (Qltb _ _); [now apply IH|].
    destruct (np_max y); [|reflexivity].
    destruct (Qltb _ _); [now apply IH|].
    destruct (np_min y); [|reflexivity].
    destruct (Qltb _ _); [now apply IH|].
    destruct (first_close x _); [|reflexivity].
    destruct (first_close y _); [|reflexivity].
    destruct (grid_at grid _ _) as [occ|]; [|reflexivity].
    destruct occ; [now apply IH|].
    apply IH; [exact Hpos|].
    rewrite !map_app, Hacc. reflexivity.
Qed.

Lemma generate_neighbours_positions grid x y r cur cur' fresh fresh' :
  position cur = position cur' ->
  match _generate_neighbours cur grid x y r fresh,
        _generate_neighbours cur' grid x y r fresh' with
  | Ok l, Ok l' => map position l = map position l'
  | Err e, Err e' => e = e'
  | _, _ => False
  end.
Proof.
  intro H. unfold _generate_neighbours.
  now apply neighbours_loop_positions.
Qed.

Section NeverEnds.

Variables (grid : grid_t) (x y : list Q) (resolution : Q).
Variables (input_port output_port : Port) (cross_section : CrossSection).
Variable end_node : Node.
Variable lattice : list point.

Hypothesis closed_lattice :
  forallb (goes_on grid x y resolution end_node lattice) lattice = true.

Let inside (s : state) : Prop :=
  open_list s <> []
  /\ forall n, In n (open_list s) ->
               on_lattice lattice (position n) = true.

Lemma body_stays_inside s :
  inside s ->
  exists s',
    astar_body grid x y resolution input_port output_port cross_section
      end_node s = Again s'
    /\ inside s'.
Proof.
  intros [Hne Hon].
  destruct (select_current_some (open_list s) Hne) as (cur & Hcur & Hin).
  pose proof (on_lattice_in _ _ (Hon cur Hin)) as Hlat.
  pose proof (proj1 (forallb_forall _ _) closed_lattice _ Hlat) as Hgo.
  unfold goes_on in Hgo. apply andb_prop in Hgo. destruct Hgo as [Hend Hnb].
  apply negb_true_iff in Hend.
  assert (Hend' : reached_end end_node cur = false) by exact Hend.
  pose proof (generate_neighbours_positions grid x y resolution
                (new_Node 0 None (position cur)) cur 0 (fresh s) eq_refl)
    as Hpos.
  destruct (_generate_neighbours (new_Node 0 None (position cur)) grid x y
              resolution 0) as [[|nb nbs]|] eqn:Eprobe; try discriminate.
  destruct (_generate_neighbours cur grid x y resolution (fresh s))
    as [l|] eqn:El; [|contradiction].
  eexists. split.
  - unfold astar_body. rewrite Hcur, Hend', El. reflexivity.
  - rewrite fold_visit_neighbour. split; cbn [open_list].
    + destruct l as [|n0 l]; [discriminate|].
      intro Habs. apply app_eq_nil in Habs. destruct Habs; discriminate.
    + intros n Hn. apply in_app_or in Hn. destruct Hn as [Hn|Hn].
      * apply Hon. eapply pop_at_incl; eauto.
      * apply in_map_iff in Hn. destruct Hn as (m & <- & Hm).
        assert (Hp : In (position m) (map position (nb :: nbs)))
          by (rewrite Hpos; now apply in_map).
        apply in_map_iff in Hp. destruct Hp as (m' & Hm' & Hin').
        pose proof (proj1 (forallb_forall _ _) Hnb _ Hin') as Hm'on.
        simpl in Hm'on.
        destruct m as [mi mp mpos mg mh mf]. simpl in *. now rewrite <- Hm'.
Qed.

Lemma loop_never_ends : forall fuel s,
  inside s ->
  astar_loop grid x y resolution input_port output_port cross_section
    end_node fuel s = None.
Proof.
  induction fuel as [|fuel IH]; intros s Hs.
  - destruct Hs as [Hne _]. simpl. destruct (open_list s); congruence.
  - destruct (body_stays_inside s Hs) as (s' & Hb & Hs').
    destruct Hs as [Hne _]. simpl.
    destruct (open_list s); [congruence|].
    rewrite Hb. now apply IH.
Qed.

End NeverEnds.

(** C2, evaluated on the empty square at resolution 2 with the west port
    and an output port at (9, 5) facing west.  The end node is at (7, 5); the
    start node is at (2, 5) and every move changes a coordinate by 2, so the
    end node is never reached; every node has a neighbour and every
    neighbour is appended, so the open list never empties.  Whatever the
    number of iterations allowed, the loop is still running after them: the
    call neither returns a route nor falls back. *)
Theorem search_never_returns :
  forall fuel,
    astar_routing fuel empty_square west_port odd_port 2 "strip" [] = None.
Proof.
  intro fuel.
  assert (Hs : exists grid x y st en,
             setup empty_square west_port odd_port 2
             = Ok (grid, x, y, st, en)
             /\ forallb (goes_on grid x y 2 en even_lattice) even_lattice
                = true
             /\ on_lattice even_lattice (position st) = true).
  { do 5 eexists. split; [by_evaluation|].
    split; vm_compute; reflexivity. }
  destruct Hs as (grid & x & y & st & en & Hsetup & Hclosed & Hst).
  rewrite (astar_routing_setup_ok _ _ _ _ _ _ _ _ _ _ _ _ Hsetup).
  apply (loop_never_ends grid x y 2 west_port odd_port
           (get_cross_section "strip" []) en even_lattice Hclosed).
  split; [discriminate|].
  intros n [<-|[]]. exact Hst.
Qed.

(** * Further properties of the code *)

(** ** The neighbours of a node *)

Lemma neighbours_loop_ids cur grid x y :
  forall deltas fresh acc l,
    neighbours_loop deltas cur grid x y fresh acc = Ok l ->
    exists new,
      l = acc ++ new
      /\ (length new <= length deltas)%nat
      /\ map nid new = seq fresh (length new).
Proof.
  induction deltas as [|mv deltas IH]; intros fresh acc l H.
  - simpl in H. inversion H; subst. exists []. rewrite app_nil_r.
    repeat split. simpl. lia.
  - assert (Hskip : neighbours_loop deltas cur grid x y fresh acc = Ok l ->
              exists new, l = acc ++ new
                /\ (length new <= length (mv :: deltas))%nat
                /\ map nid new = seq fresh (length new)).
    { intro H'. destruct (IH _ _ _ H') as (new & -> & Hlen & Hids).
      exists new. repeat split; [simpl; lia|exact Hids]. }
    simpl in H. unfold bind in H.
    destruct (np_max x); [|discriminate].
    destruct (Qltb _ _); [now apply Hskip|].
    destruct (np_min x); [|discriminate].
    destruct (Qltb _ _); [now apply Hskip|].
    destruct (np_max y); [|discriminate].
    destruct (Qltb _ _); [now apply Hskip|].
    destruct (np_min y); [|discriminate].
    destruct (Qltb _ _); [now apply Hskip|].
    destruct (first_close x _); [|discriminate].
    destruct (first_close y _); [|discriminate].
    destruct (grid_at grid _ _) as [occ|]; [|discriminate].
    destruct occ; [now apply Hskip|].
    destruct (IH _ _ _ H) as (new & -> & Hlen & Hids).
    eexists (_ :: new). rewrite <- app_assoc. split; [reflexivity|].
    split; [simpl; lia|]. simpl. now rewrite Hids.
Qed.

Lemma generate_neighbours_shape :
  forall cur grid x y resolution fresh l,
    _generate_neighbours cur grid x y resolution fresh = Ok l ->
    (length l <= 4)%nat
    /\ map nid l = seq fresh (length l)
    /\ forall n, In n l ->
         parent n = Some cur
         /\ (exists mv, In mv (moves resolution)
               /\ position n = (fst (position cur) + fst mv,
                                snd (position cur) + snd mv))
         /\ (exists i j, candidate_kept grid x y (position n) i j).
Proof.
  intros cur grid x y resolution fresh l H.
  unfold _generate_neighbours in H.
  destruct (neighbours_loop_ids _ _ _ _ _ _ _ _ H) as (new & -> & Hlen & Hids).
  simpl in *. split; [exact Hlen|]. split; [exact Hids|].
  pose proof (neighbours_loop_kept
                (fun n => parent n = Some cur
                   /\ (exists mv, In mv (moves resolution)
                         /\ position n = (fst (position cur) + fst mv,
                                          snd (position cur) + snd mv))
                   /\ (exists i j, candidate_kept grid x y (position n) i j))
                cur grid x y (moves resolution) fresh [] new) as HP.
  rewrite <- Forall_forall. apply HP; [|constructor|exact H].
  intros k mv i j Hmv Hkept. cbn [parent position new_Node].
  split; [reflexivity|]. split; [exists mv; split; [exact Hmv|reflexivity]|].
  exists i, j. exact Hkept.
Qed.

(** X1. When [_generate_neighbours] returns, it returns at most four nodes,
    with identities allocated in sequence; each has the current node as
    parent, sits exactly one move (south, north, west or east, of length
    [resolution]) from the current node, passed the bounds check, and has a
    free cell at the indices found by the lookup. *)
Theorem generated_neighbours_are_kept_moves :
  forall cur grid x y resolution fresh l,
    _generate_neighbours cur grid x y resolution fresh = Ok l ->
    (length l <= 4)%nat
    /\ map nid l = seq fresh (length l)
    /\ forall n, In n l ->
         parent n = Some cur
         /\ (exists mv, In mv (moves resolution)
               /\ position n = (fst (position cur) + fst mv,
                                snd (position cur) + snd mv))
         /\ (exists i j, candidate_kept grid x y (position n) i j).
Proof.
  exact generate_neighbours_shape.
Qed.

Lemma generated_neighbours_are_kept_moves_witness :
  let cur := mkNode 0 None (1, 1) 0 0 0 in
  let l := [mkNode 2 (Some cur) (1, 0) 0 0 0;
            mkNode 3 (Some cur) (1, 2) 0 0 0;
            mkNode 4 (Some cur) (0, 1) 0 0 0;
            mkNode 5 (Some cur) (2, 1) 0 0 0] in
  (length l <= 4)%nat
  /\ map nid l = seq 2 (length l)
  /\ forall n, In n l ->
       parent n = Some cur
       /\ (exists mv, In mv (moves 1)
             /\ position n = (fst (position cur) + fst mv,
                              snd (position cur) + snd mv))
       /\ (exists i j,
              candidate_kept (repeat (repeat false 3) 3) [0; 1; 2] [0; 1; 2]
                (position n) i j).
Proof.
  intros cur l.
  refine (generated_neighbours_are_kept_moves cur
            (repeat (repeat false 3) 3) [0; 1; 2] [0; 1; 2] 1 2 l _).
  vm_compute. reflexivity.
Defined.

(** ** The returned waypoints *)

Lemma node_induction (P : Node -> Prop) :
  (forall i pos g0 h0 f0, P (mkNode i None pos g0 h0 f0)) ->
  (forall i p pos g0 h0 f0, P p -> P (mkNode i (Some p) pos g0 h0 f0)) ->
  forall n, P n.
Proof.
  intros Hroot Hstep. fix IH 1.
  intros [i [p|] pos g0 h0 f0].
  - apply Hstep. apply IH.
  - apply Hroot.
Qed.

Lemma trace_back_head (n : Node) :
  exists t, trace_back n = position n :: t.
Proof.
  destruct n as [i [p|] pos g0 h0 f0]; simpl; eexists; reflexivity.
Qed.

Lemma rev_trace_back_last (n : Node) :
  exists l, rev (trace_back n) = l ++ [position n].
Proof.
  destruct (trace_back_head n) as (t & Ht). rewrite Ht. simpl.
  now exists (rev t).
Qed.

Lemma rev_trace_back_first : forall n,
  exists t, rev (trace_back n) = position (root n) :: t.
Proof.
  apply node_induction.
  - intros. simpl. now exists [].
  - intros i p pos g0 h0 f0 (t & Ht). simpl. rewrite Ht.
    exists (t ++ [pos]). reflexivity.
Qed.

Lemma stepwise_snoc r : forall l a b,
  stepwise r (l ++ [a]) ->
  (exists mv, In mv (moves r) /\ b = (fst a + fst mv, snd a + snd mv)) ->
  stepwise r ((l ++ [a]) ++ [b]).
Proof.
  induction l as [|c l IH]; intros a b Hl Hstep.
  - simpl. split; [exact Hstep|exact I].
  - destruct l as [|d l].
    + simpl in *. destruct Hl as [Hcd _]. split; [exact Hcd|].
      split; [exact Hstep|exact I].
    + simpl in Hl. destruct Hl as [Hcd Hl].
      simpl. split; [exact Hcd|]. apply (IH a b); assumption.
Qed.

Lemma well_linked_stepwise grid x y r : forall n,
  well_linked grid x y r n -> stepwise r (rev (trace_back n)).
Proof.
  apply (node_induction (fun n => well_linked grid x y r n ->
                                  stepwise r (rev (trace_back n)))).
  - intros. simpl. exact I.
  - intros i p pos g0 h0 f0 IH (Hmv & _ & Hp).
    simpl. destruct (rev_trace_back_last p) as (l & Hl). rewrite Hl.
    apply stepwise_snoc; [rewrite <- Hl; now apply IH|exact Hmv].
Qed.

Lemma well_linked_all_kept grid x y r : forall n,
  well_linked grid x y r n -> all_kept grid x y (tl (rev (trace_back n))).
Proof.
  apply (node_induction (fun n => well_linked grid x y r n ->
                           all_kept grid x y (tl (rev (trace_back n))))).
  - intros. simpl. constructor.
  - intros i p pos g0 h0 f0 IH (_ & Hk & Hp).
    simpl. destruct (rev_trace_back_first p) as (t & Ht). rewrite Ht.
    simpl. specialize (IH Hp). rewrite Ht in IH. simpl in IH.
    apply Forall_app. split; [exact IH|]. constructor; [exact Hk|constructor].
Qed.

Lemma well_linked_with_costs grid x y r en cur nb :
  well_linked grid x y r cur ->
  parent nb = Some cur ->
  (exists mv, In mv (moves r)
     /\ position nb = (fst (position cur) + fst mv,
                       snd (position cur) + snd mv)) ->
  (exists i j, candidate_kept grid x y (position nb) i j) ->
  well_linked grid x y r (with_costs r en cur nb)
  /\ root (with_costs r en cur nb) = root cur.
Proof.
  intros Hcur Hp Hmv Hk. destruct nb as [i par pos g0 h0 f0].
  simpl in Hp. subst par. unfold with_costs. cbn in *.
  repeat split; assumption.
Qed.

Lemma linked_step grid x y r ip op xs st en s s' :
  Forall (fun n => well_linked grid x y r n /\ root n = st)
    (open_list s ++ closed s) ->
  astar_body grid x y r ip op xs en s = Again s' ->
  Forall (fun n => well_linked grid x y r n /\ root n = st)
    (open_list s' ++ closed s').
Proof.
  intros Hinv Hb.
  destruct (astar_body_again _ _ _ _ _ _ _ _ _ _ Hb)
    as (cur & nbs & Hcur & _ & Hnb & ->).
  rewrite Forall_forall in Hinv.
  assert (Hc : well_linked grid x y r cur /\ root cur = st).
  { apply Hinv. apply in_or_app. left. eapply nth_error_In; eauto. }
  destruct (generate_neighbours_shape _ _ _ _ _ _ _ Hnb)
    as (_ & _ & Hall).
  cbn [open_list closed]. rewrite Forall_forall. intros n Hn.
  apply in_app_or in Hn. destruct Hn as [Hn|Hn].
  - apply in_app_or in Hn. destruct Hn as [Hn|Hn].
    + apply Hinv. apply in_or_app. left. eapply pop_at_incl; eauto.
    + apply in_map_iff in Hn. destruct Hn as (nb & <- & Hin).
      destruct (Hall nb Hin) as (Hp & Hmv & Hk). destruct Hc as [Hl Hr].
      destruct (well_linked_with_costs grid x y r en cur nb Hl Hp Hmv Hk)
        as [H1 H2].
      split; [exact H1|congruence].
  - apply in_app_or in Hn. destruct Hn as [Hn|[<-|[]]].
    + apply Hinv. apply in_or_app. now right.
    + exact Hc.
Qed.

(** What a returned waypoint route comes from: some number of runs of the
    body, then a run that pops a node at the end coordinate. *)
Lemma loop_returns_waypoints grid x y r ip op xs en : forall fuel s0 w pts xs',
  astar_loop grid x y r ip op xs en fuel s0
  = Some (Returned w (get_route_from_waypoints pts xs')) ->
  exists k s cur,
    iterate grid x y r ip op xs en k s0 = Some s
    /\ In cur (open_list s)
    /\ reached_end en cur = true
    /\ pts = waypoints ip op cur /\ w = [] /\ xs' = xs.
Proof.
  induction fuel as [|fuel IH]; intros s0 w pts xs' H; simpl in H.
  - destruct (open_list s0); discriminate.
  - destruct (open_list s0) as [|n0 ol] eqn:Eo; [discriminate|].
    destruct (astar_body grid x y r ip op xs en s0) as [s1|rt|e] eqn:Eb.
    + destruct (IH _ _ _ _ H) as (k & s & cur & Hit & Hin & Hend & Hrest).
      exists (S k), s, cur. split; [|tauto].
      simpl. now rewrite Eo, Eb.
    + inversion H; subst. exists O, s0. unfold astar_body in Eb.
      destruct (nth_error (open_list s0) _) as [cur|] eqn:Ecur;
        [|discriminate].
      destruct (reached_end en cur) eqn:Eend.
      * inversion Eb; subst. exists cur.
        split; [reflexivity|]. split; [eapply nth_error_In; eauto|].
        repeat split; assumption.
      * destruct (_generate_neighbours _ _ _ _ _ _); discriminate.
    + discriminate.
Qed.

(** X2. A waypoint route returned by the call has this shape: the true
    centre of the input port, then a chain of positions, then the true
    centre of the output port.  The chain begins at the position of the
    start node and ends at the coordinate of the end node; each of its
    points is the one before it moved by exactly one move (south, north,
    west or east, of length [resolution]), and every point after the first
    passed the bounds check and has a free cell at the indices of its
    lookup.  No warning is emitted and the cross-section is the resolved
    one. *)
Theorem returned_waypoints_are_a_stepwise_chain :
  forall fuel c ip op r cs kw grid x y st en w pts xs,
    setup c ip op r = Ok (grid, x, y, st, en) ->
    astar_routing fuel c ip op r cs kw
    = Some (Returned w (get_route_from_waypoints pts xs)) ->
    exists chain t l e,
      pts = center ip :: chain ++ [center op]
      /\ chain = position st :: t
      /\ chain = l ++ [e]
      /\ fst e == fst (position en) /\ snd e == snd (position en)
      /\ stepwise r chain
      /\ all_kept grid x y t
      /\ w = [] /\ xs = get_cross_section cs kw.
Proof.
  intros fuel c ip op r cs kw grid x y st en w pts xs Hs H.
  rewrite (astar_routing_setup_ok _ _ _ _ _ _ _ _ _ _ _ _ Hs) in H.
  destruct (loop_returns_waypoints _ _ _ _ _ _ _ _ _ _ _ _ _ H)
    as (k & s & cur & Hit & Hin & Hend & -> & -> & ->).
  destruct (setup_inv _ _ _ _ _ _ _ _ _ Hs)
    as (oi & oo & _ & _ & _ & Hst & _).
  assert (Hinv : Forall (fun n => well_linked grid x y r n /\ root n = st)
                   (open_list s ++ closed s)).
  { refine (iterate_invariant grid x y r ip op (get_cross_section cs kw) en
              (fun s => Forall (fun n => well_linked grid x y r n
                                         /\ root n = st)
                          (open_list s ++ closed s))
              _ k (initial_state st) s _ Hit).
    - intros s1 s2. apply linked_step.
    - cbn. constructor; [|constructor]. subst st. split; [exact I|].
      reflexivity. }
  rewrite Forall_forall in Hinv.
  destruct (Hinv cur (in_or_app _ _ _ (or_introl Hin))) as [Hl Hr].
  destruct (rev_trace_back_first cur) as (t & Ht).
  destruct (rev_trace_back_last cur) as (l & Hlast).
  unfold reached_end in Hend. apply andb_prop in Hend.
  destruct Hend as [Hx Hy].
  apply Qeq_bool_iff in Hx. apply Qeq_bool_iff in Hy.
  exists (rev (trace_back cur)), t, l, (position cur).
  split; [reflexivity|]. split; [now rewrite Ht, Hr|].
  split; [exact Hlast|]. split; [exact Hx|]. split; [exact Hy|].
  split; [now apply (well_linked_stepwise grid x y)|].
  split; [|split; reflexivity].
  pose proof (well_linked_all_kept grid x y r cur Hl) as Hk.
  rewrite Ht in Hk. exact Hk.
Qed.

Lemma returned_waypoints_are_a_stepwise_chain_witness :
  exists grid x y chain t l e,
    setup empty_square west_port east_port 1
    = Ok (grid, x, y, mkNode 0 None (1, 5) 0 0 0, mkNode 1 None (9, 5) 0 0 0)
    /\ [(0, 5); (1, 5); (2, 5); (3, 5); (4, 5); (5, 5); (6, 5); (7, 5);
        (8, 5); (9, 5); (10, 5)]
       = center west_port :: chain ++ [center east_port]
    /\ chain = (1, 5) :: t
    /\ chain = l ++ [e]
    /\ fst e == 9 /\ snd e == 5
    /\ stepwise 1 chain
    /\ all_kept grid x y t.
Proof.
  assert (Hs : exists grid x y,
             setup empty_square west_port east_port 1
             = Ok (grid, x, y, mkNode 0 None (1, 5) 0 0 0,
                   mkNode 1 None (9, 5) 0 0 0))
    by (do 3 eexists; by_evaluation).
  destruct Hs as (grid & x & y & Hs).
  assert (Hrun : astar_routing 9 empty_square west_port east_port 1 "strip" []
                 = Some (Returned []
                           (get_route_from_waypoints
                              [(0, 5); (1, 5); (2, 5); (3, 5); (4, 5);
                               (5, 5); (6, 5); (7, 5); (8, 5); (9, 5);
                               (10, 5)]
                              (get_cross_section "strip" []))))
    by (vm_compute; reflexivity).
  destruct (returned_waypoints_are_a_stepwise_chain _ _ _ _ _ _ _ _ _ _ _ _
              _ _ _ Hs Hrun)
    as (chain & t & l & e & H1 & H2 & H3 & H4 & H5 & H6 & H7 & _).
  exists grid, x, y, chain, t, l, e. repeat split; assumption.
Defined.

(** ** The node taken from the open list *)

Lemma select_prefix (ol : list Node) : forall n,
  let c := fold_left
             (fun current_index index =>
                if Qltb (f (nth index ol dummy_node))
                        (f (nth current_index ol dummy_node))
                then index else current_index)
             (seq 0 n) O in
  (c = O \/ (c < n)%nat)
  /\ (forall i, (i < n)%nat ->
        f (nth c ol dummy_node) <= f (nth i ol dummy_node))
  /\ (forall i, (i < c)%nat ->
        f (nth c ol dummy_node) < f (nth i ol dummy_node)).
Proof.
  induction n as [|n IH]; intro c.
  - subst c. simpl. split; [now left|]. split; intros i Hi; lia.
  - subst c. rewrite seq_S, fold_left_app. simpl.
    set (c := fold_left _ (seq 0 n) 0%nat) in *.
    destruct IH as (Hc & Hmin & Hfirst).
    destruct (Qltb (f (nth n ol dummy_node)) (f (nth c ol dummy_node)))
      eqn:E.
    + apply Qltb_lt in E. split; [right; lia|]. split.
      * intros i Hi. destruct (Nat.eq_dec i n) as [->|Hne];
          [apply Qle_refl|].
        apply Qlt_le_weak. eapply Qlt_le_trans; [exact E|].
        apply Hmin. lia.
      * intros i Hi. eapply Qlt_le_trans; [exact E|]. now apply Hmin.
    + apply Qltb_ge in E. split; [destruct Hc; [now left|right; lia]|].
      split.
      * intros i Hi. destruct (Nat.eq_dec i n) as [->|Hne]; [exact E|].
        apply Hmin. lia.
      * exact Hfirst.
Qed.

(** X3. The node taken from the open list has the least [f] of the list,
    and is the first such node: no node of the list has a smaller [f], and
    every node before it has a strictly greater one. *)
Theorem selected_node_has_least_f_first :
  forall (ol : list Node) (cur : Node),
    nth_error ol (select_current ol) = Some cur ->
    (forall n, In n ol -> f cur <= f n)
    /\ (forall i n, (i < select_current ol)%nat ->
          nth_error ol i = Some n -> f cur < f n).
Proof.
  intros ol cur Hcur.
  destruct (select_prefix ol (length ol)) as (_ & Hmin & Hfirst).
  fold (select_current ol) in Hmin, Hfirst.
  rewrite (nth_error_nth ol _ dummy_node Hcur) in Hmin, Hfirst.
  split.
  - intros n Hn. apply In_nth_error in Hn. destruct Hn as (i & Hi).
    assert (Hlt : (i < length ol)%nat)
      by (apply nth_error_Some; congruence).
    specialize (Hmin i Hlt).
    now rewrite (nth_error_nth ol _ dummy_node Hi) in Hmin.
  - intros i n Hi Hn. specialize (Hfirst i Hi).
    now rewrite (nth_error_nth ol _ dummy_node Hn) in Hfirst.
Qed.

Lemma selected_node_has_least_f_first_witness :
  let a := mkNode 2 None (1, 4) 1 65 66 in
  let b := mkNode 3 None (2, 5) 1 49 50 in
  let c := mkNode 4 None (2, 5) 1 49 50 in
  (forall n, In n [a; b; c] -> f b <= f n)
  /\ (forall i n, (i < select_current [a; b; c])%nat ->
        nth_error [a; b; c] i = Some n -> f b < f n).
Proof.
  intros a b c.
  refine (selected_node_has_least_f_first [a; b; c] b _).
  vm_compute. reflexivity.
Defined.

(** ** Node identities *)

Lemma pop_at_middle {A : Type} (l1 : list A) (a : A) (l2 : list A) :
  pop_at (length l1) (l1 ++ a :: l2) = l1 ++ l2.
Proof.
  unfold pop_at. induction l1 as [|b l1 IH]; simpl; [reflexivity|].
  f_equal. exact IH.
Qed.

Lemma pop_at_perm {A : Type} (l : list A) (i : nat) (a : A) :
  nth_error l i = Some a -> Permutation l (a :: pop_at i l).
Proof.
  intro H. apply nth_error_split in H. destruct H as (l1 & l2 & -> & <-).
  rewrite pop_at_middle. symmetry. apply Permutation_middle.
Qed.

Lemma body_lists_perm grid x y r ip op xs en s s' :
  astar_body grid x y r ip op xs en s = Again s' ->
  exists cur nbs,
    In cur (open_list s)
    /\ _generate_neighbours cur grid x y r (fresh s) = Ok nbs
    /\ fresh s' = (fresh s + length nbs)%nat
    /\ Permutation (open_list s' ++ closed s')
         ((open_list s ++ closed s) ++ map (with_costs r en cur) nbs).
Proof.
  intro Hb.
  destruct (astar_body_again _ _ _ _ _ _ _ _ _ _ Hb)
    as (cur & nbs & Hcur & _ & Hnb & ->).
  exists cur, nbs. split; [eapply nth_error_In; eauto|].
  split; [exact Hnb|]. split; [reflexivity|]. cbn [open_list closed].
  set (new := map (with_costs r en cur) nbs).
  set (pop := pop_at (select_current (open_list s)) (open_list s)).
  pose proof (pop_at_perm _ _ _ Hcur) as Hperm. fold pop in Hperm.
  transitivity (cur :: (pop ++ new) ++ closed s).
  - rewrite app_assoc. symmetry. apply Permutation_cons_append.
  - transitivity ((open_list s ++ new) ++ closed s).
    + change (cur :: (pop ++ new) ++ closed s)
        with (((cur :: pop) ++ new) ++ closed s).
      apply Permutation_app_tail. apply Permutation_app_tail.
      symmetry. exact Hperm.
    + rewrite <- !app_assoc. apply Permutation_app_head.
      apply Permutation_app_comm.
Qed.

Lemma map_nid_with_costs r en cur nbs :
  map nid (map (with_costs r en cur) nbs) = map nid nbs.
Proof.
  rewrite map_map. apply map_ext. intros [i p pos g0 h0 f0]. reflexivity.
Qed.

Lemma identities_step grid x y r ip op xs en s s' :
  identities_ok s ->
  astar_body grid x y r ip op xs en s = Again s' ->
  identities_ok s'.
Proof.
  intros (Hnd & Hlt & Hlen) Hb.
  destruct (body_lists_perm _ _ _ _ _ _ _ _ _ _ Hb)
    as (cur & nbs & _ & Hnb & Hfresh & Hperm).
  destruct (generate_neighbours_shape _ _ _ _ _ _ _ Hnb) as (_ & Hids & _).
  assert (Hnew : map nid (map (with_costs r en cur) nbs)
                 = seq (fresh s) (length nbs))
    by (now rewrite map_nid_with_costs).
  split; [|split].
  - apply (Permutation_NoDup
             (l := map nid ((open_list s ++ closed s)
                            ++ map (with_costs r en cur) nbs))).
    + apply Permutation_map. symmetry. exact Hperm.
    + rewrite map_app, Hnew. apply NoDup_app; [exact Hnd|apply seq_NoDup|].
      intros a Ha Hseq. apply in_map_iff in Ha. destruct Ha as (n & <- & Hn).
      apply in_seq in Hseq. specialize (Hlt n Hn). lia.
  - intros n Hn. rewrite Hfresh.
    apply (Permutation_in _ Hperm) in Hn. apply in_app_or in Hn.
    destruct Hn as [Hn|Hn].
    + specialize (Hlt n Hn). lia.
    + assert (Hin : In (nid n) (map nid (map (with_costs r en cur) nbs)))
        by (now apply in_map).
      rewrite Hnew in Hin. apply in_seq in Hin. lia.
  - rewrite (Permutation_length Hperm), Hfresh, length_app, length_map. lia.
Qed.

(** X4. In every state the search reaches, the node objects in the open
    and closed lists are pairwise distinct and there are as many of them as
    nodes were allocated; and a node freshly returned by neighbour
    generation is never the same object as a node already in one of the
    lists, so the equality tests of the two scans are false for every pair
    they compare. *)
Theorem scanned_nodes_never_equal_a_neighbour :
  forall c ip op r cs kw grid x y st en k s,
    setup c ip op r = Ok (grid, x, y, st, en) ->
    iterate grid x y r ip op (get_cross_section cs kw) en k
      (initial_state st) = Some s ->
    NoDup (map nid (open_list s ++ closed s))
    /\ (length (open_list s) + length (closed s) + 1 = fresh s)%nat
    /\ forall cur nbs nb m,
         _generate_neighbours cur grid x y r (fresh s) = Ok nbs ->
         In nb nbs -> In m (open_list s ++ closed s) ->
         node_eq nb m = false.
Proof.
  intros c ip op r cs kw grid x y st en k s Hs Hit.
  destruct (setup_inv _ _ _ _ _ _ _ _ _ Hs)
    as (oi & oo & _ & _ & _ & Hst & _).
  assert (Hinv : identities_ok s).
  { refine (iterate_invariant grid x y r ip op (get_cross_section cs kw) en
              identities_ok _ k (initial_state st) s _ Hit).
    - intros s1 s2. apply identities_step.
    - subst st. unfold identities_ok. cbn.
      split; [constructor; [intros []|constructor]|].
      split; [intros n [<-|[]]; cbn; lia|reflexivity]. }
  destruct Hinv as (Hnd & Hlt & Hlen).
  split; [exact Hnd|]. split; [rewrite length_app in Hlen; lia|].
  intros cur nbs nb m Hnb Hin Hm.
  destruct (generate_neighbours_shape _ _ _ _ _ _ _ Hnb) as (_ & Hids & _).
  assert (Hge : In (nid nb) (seq (fresh s) (length nbs)))
    by (rewrite <- Hids; now apply in_map).
  apply in_seq in Hge. specialize (Hlt m Hm).
  unfold node_eq. apply Nat.eqb_neq. lia.
Qed.

Lemma scanned_nodes_never_equal_a_neighbour_witness :
  exists grid x y s,
    setup empty_square west_port east_port 1
    = Ok (grid, x, y, mkNode 0 None (1, 5) 0 0 0, mkNode 1 None (9, 5) 0 0 0)
    /\ iterate grid x y 1 west_port east_port (get_cross_section "strip" [])
         (mkNode 1 None (9, 5) 0 0 0) 2
         (initial_state (mkNode 0 None (1, 5) 0 0 0)) = Some s
    /\ NoDup (map nid (open_list s ++ closed s))
    /\ (length (open_list s) + length (closed s) + 1 = fresh s)%nat.
Proof.
  do 4 eexists.
  split; [by_evaluation|]. split; [by_evaluation|].
  refine ((fun H => conj (proj1 H) (proj1 (proj2 H)))
            (scanned_nodes_never_equal_a_neighbour empty_square west_port
               east_port 1 "strip" [] _ _ _ _ _ 2 _ _ _)).
  - by_evaluation.
  - by_evaluation.
Defined.

(** ** The grid *)

Lemma np_linspace_length s t n l :
  np_linspace s t n = Ok l -> length l = Z.to_nat n.
Proof.
  unfold np_linspace. destruct (n <? 0)%Z; [discriminate|].
  destruct (Z.to_nat n) as [|[|m]]; intro H; inversion H; subst; simpl;
    [reflexivity|reflexivity|].
  rewrite length_app, length_map, length_seq. simpl. lia.
Qed.

Lemma grid_axes_inv c r x y :
  grid_axes c r = Ok (x, y) ->
  exists nx ny,
    int_div (fst (snd (bbox c)) - fst (fst (bbox c))) r = Ok nx
    /\ np_linspace (fst (fst (bbox c))) (fst (snd (bbox c))) nx = Ok x
    /\ int_div (snd (snd (bbox c)) - snd (fst (bbox c))) r = Ok ny
    /\ np_linspace (snd (fst (bbox c))) (snd (snd (bbox c))) ny = Ok y
    /\ x <> [] /\ y <> [].
Proof.
  unfold grid_axes, bind. intro H.
  destruct (int_div (fst (snd (bbox c)) - fst (fst (bbox c))) r)
    as [nx|] eqn:Enx; [|discriminate].
  destruct (np_linspace (fst (fst (bbox c))) (fst (snd (bbox c))) nx)
    as [xs|] eqn:Exs; [|discriminate].
  destruct (int_div (snd (snd (bbox c)) - snd (fst (bbox c))) r)
    as [ny|] eqn:Eny; [|discriminate].
  destruct (np_linspace (snd (fst (bbox c))) (snd (snd (bbox c))) ny)
    as [ys|] eqn:Eys; [|discriminate].
  destruct ys as [|b ys]; [discriminate|].
  destruct xs as [|a xs]; [discriminate|].
  inversion H; subst. exists nx, ny. repeat split; try assumption;
    discriminate.
Qed.

Lemma generate_grid_inv c r grid x y :
  _generate_grid c r = Ok (grid, x, y) ->
  exists x0 y0,
    grid_axes c r = Ok (x0, y0)
    /\ grid = fold_left (mark_reference x0 y0) (references c)
                (repeat (repeat false (length y0)) (length x0))
    /\ x = map np_round3 x0 /\ y = map np_round3 y0.
Proof.
  unfold _generate_grid, bind. intro H.
  destruct (grid_axes c r) as [[x0 y0]|]; [|discriminate].
  inversion H; subst. exists x0, y0. repeat split; reflexivity.
Qed.

Lemma nth_error_combine_seq {A : Type} (l : list A) : forall s i a,
  nth_error l i = Some a ->
  nth_error (combine (seq s (length l)) l) i = Some ((s + i)%nat, a).
Proof.
  induction l as [|b l IH]; intros s i a H; [destruct i; discriminate|].
  destruct i as [|i]; simpl in *.
  - inversion H; subst. now rewrite Nat.add_0_r.
  - rewrite (IH (S s) i a H). f_equal. f_equal. lia.
Qed.

Lemma mark_row_length a b row : length (mark_row a b row) = length row.
Proof.
  unfold mark_row. rewrite length_map, length_combine, length_seq. lia.
Qed.

Lemma mark_slice_shape a b c d (grid : grid_t) (n m : nat) :
  length grid = n -> Forall (fun row => length row = m) grid ->
  length (mark_slice a b c d grid) = n
  /\ Forall (fun row => length row = m) (mark_slice a b c d grid).
Proof.
  intros Hn Hm. unfold mark_slice. split.
  - rewrite length_map, length_combine, length_seq. lia.
  - rewrite Forall_forall in *. intros row Hrow.
    apply in_map_iff in Hrow. destruct Hrow as ([i r0] & <- & Hin).
    apply in_combine_r in Hin. simpl.
    destruct (in_slice a b i); [rewrite mark_row_length|]; now apply Hm.
Qed.

Lemma fold_mark_shape x0 y0 (n m : nat) : forall refs grid,
  length grid = n -> Forall (fun row => length row = m) grid ->
  length (fold_left (mark_reference x0 y0) refs grid) = n
  /\ Forall (fun row => length row = m)
       (fold_left (mark_reference x0 y0) refs grid).
Proof.
  induction refs as [|rb refs IH]; intros grid Hn Hm; simpl; [now split|].
  unfold mark_reference at 2 4.
  destruct (mark_slice_shape (abs_argmin x0 (fst (fst rb)))
              (abs_argmin x0 (fst (snd rb))) (abs_argmin y0 (snd (fst rb)))
              (abs_argmin y0 (snd (snd rb))) grid n m Hn Hm) as [H1 H2].
  now apply IH.
Qed.

(** X5. When [_generate_grid] returns, both axes are non-empty, the grid
    has one row per x coordinate and each row has one cell per y
    coordinate, and the numbers of coordinates are the extents of the
    bounding box divided by the resolution, truncated. *)
Theorem generated_grid_shape :
  forall c r grid x y,
    _generate_grid c r = Ok (grid, x, y) ->
    x <> [] /\ y <> []
    /\ length grid = length x
    /\ Forall (fun row => length row = length y) grid
    /\ exists nx ny,
         int_div (fst (snd (bbox c)) - fst (fst (bbox c))) r = Ok nx
         /\ int_div (snd (snd (bbox c)) - snd (fst (bbox c))) r = Ok ny
         /\ length x = Z.to_nat nx /\ length y = Z.to_nat ny.
Proof.
  intros c r grid x y H.
  destruct (generate_grid_inv _ _ _ _ _ H) as (x0 & y0 & Hax & -> & -> & ->).
  destruct (grid_axes_inv _ _ _ _ Hax)
    as (nx & ny & Hnx & Hx & Hny & Hy & Hxne & Hyne).
  rewrite !length_map.
  split; [destruct x0; [congruence|discriminate]|].
  split; [destruct y0; [congruence|discriminate]|].
  destruct (fold_mark_shape x0 y0 (length x0) (length y0) (references c)
              (repeat (repeat false (length y0)) (length x0)))
    as [H1 H2].
  - apply repeat_length.
  - rewrite Forall_forall. intros row Hrow. apply repeat_spec in Hrow.
    subst. apply repeat_length.
  - split; [exact H1|]. split; [exact H2|].
    exists nx, ny. repeat split; try assumption;
      eapply np_linspace_length; eassumption.
Qed.

Lemma generated_grid_shape_witness :
  exists grid x y,
    _generate_grid two_blocks 1 = Ok (grid, x, y)
    /\ length grid = length x
    /\ Forall (fun row => length row = length y) grid.
Proof.
  assert (H : exists grid x y, _generate_grid two_blocks 1 = Ok (grid, x, y))
    by (do 3 eexists; by_evaluation).
  destruct H as (grid & x & y & H).
  destruct (generated_grid_shape _ _ _ _ _ H) as (_ & _ & H1 & H2 & _).
  exists grid, x, y. repeat split; assumption.
Defined.

Lemma grid_at_mark_slice a b c d (grid : grid_t) (i j : nat) (v : bool) :
  grid_at grid i j = Ok v ->
  grid_at (mark_slice a b c d grid) i j
  = Ok (in_slice a b i && in_slice c d j || v).
Proof.
  unfold grid_at. intro H.
  destruct (nth_error grid i) as [row|] eqn:Erow; [|discriminate].
  destruct (nth_error row j) as [v0|] eqn:Ev; [|discriminate].
  inversion H; subst v0.
  unfold mark_slice.
  rewrite (map_nth_error _ _ _ (nth_error_combine_seq grid 0 i row Erow)).
  simpl. destruct (in_slice a b i); simpl.
  - unfold mark_row.
    rewrite (map_nth_error _ _ _ (nth_error_combine_seq row 0 j v Ev)).
    simpl. destruct (in_slice c d j); reflexivity.
  - now rewrite Ev.
Qed.

Lemma grid_at_fold_mark x0 y0 (i j : nat) : forall refs grid v,
  grid_at grid i j = Ok v ->
  grid_at (fold_left (mark_reference x0 y0) refs grid) i j
  = Ok (v || existsb (in_reference_slice x0 y0 i j) refs).
Proof.
  induction refs as [|rb refs IH]; intros grid v H; simpl.
  - now rewrite orb_false_r.
  - unfold mark_reference at 2.
    rewrite (IH _ _ (grid_at_mark_slice _ _ _ _ _ _ _ _ H)).
    f_equal. unfold in_reference_slice at 2.
    destruct v, (in_slice _ _ i), (in_slice _ _ j); reflexivity.
Qed.

(** X6. In the grid [_generate_grid] returns, a cell is occupied exactly
    when, for some reference, its row index is at least the index nearest to
    the lower x corner and below the index nearest to the upper x corner,
    and likewise for its column index and the y corners; every other cell is
    free.  The nearest indices are taken on the axes before rounding. *)
Theorem cell_occupied_iff_in_a_reference_slice :
  forall c r grid x y x0 y0 i j,
    _generate_grid c r = Ok (grid, x, y) ->
    grid_axes c r = Ok (x0, y0) ->
    (i < length x)%nat -> (j < length y)%nat ->
    grid_at grid i j
    = Ok (existsb (in_reference_slice x0 y0 i j) (references c)).
Proof.
  intros c r grid x y x0 y0 i j H Hax Hi Hj.
  destruct (generate_grid_inv _ _ _ _ _ H) as (x1 & y1 & Hax' & -> & -> & ->).
  rewrite Hax in Hax'. inversion Hax'; subst x1 y1.
  rewrite length_map in Hi, Hj.
  rewrite (grid_at_fold_mark x0 y0 i j (references c) _ false);
    [reflexivity|].
  unfold grid_at. rewrite (nth_error_repeat _ Hi).
  now rewrite (nth_error_repeat _ Hj).
Qed.

Lemma cell_occupied_iff_in_a_reference_slice_witness :
  exists grid x y x0 y0,
    _generate_grid two_blocks 1 = Ok (grid, x, y)
    /\ grid_axes two_blocks 1 = Ok (x0, y0)
    /\ grid_at grid 6 3
       = Ok (existsb (in_reference_slice x0 y0 6 3) (references two_blocks))
    /\ grid_at grid 6 3 = Ok true.
Proof.
  assert (H : exists grid x y x0 y0,
             _generate_grid two_blocks 1 = Ok (grid, x, y)
             /\ grid_axes two_blocks 1 = Ok (x0, y0)
             /\ (6 < length x)%nat /\ (3 < length y)%nat
             /\ grid_at grid 6 3 = Ok true).
  { do 5 eexists. split; [by_evaluation|]. split; [by_evaluation|].
    repeat split; vm_compute; reflexivity || lia. }
  destruct H as (grid & x & y & x0 & y0 & Hg & Hax & Hi & Hj & Hv).
  exists grid, x, y, x0, y0.
  split; [exact Hg|]. split; [exact Hax|].
  split; [|exact Hv].
  exact (cell_occupied_iff_in_a_reference_slice _ _ _ _ _ _ _ _ _ Hg Hax
           Hi Hj).
Defined.

(** ** Orientation lookup *)

(** X7. The orientation lookup succeeds exactly for the five recognised
    orientations (0, 90, 180, 270 and none), and then gives the step vector
    of that orientation; for every other value it raises KeyError. *)
Theorem orientation_lookup_succeeds_iff_recognized :
  forall (r : Q) (o : option Q),
    (recognized o <->
     exists v, orientation_step r o = Ok v /\ step_vector r o v)
    /\ (~ recognized o <-> orientation_step r o = Err KeyError).
Proof.
  intros r o.
  assert (Hok : forall v, orientation_step r o = Ok v -> recognized o).
  { intros v Hv. apply orientation_step_vector in Hv.
    inversion Hv; subst; simpl; tauto. }
  split; split.
  - intro Hrec. destruct (orientation_step r o) as [v|e] eqn:E.
    + exists v. split; [reflexivity|]. now apply orientation_step_vector.
    + exfalso. destruct o as [a|]; [|discriminate]. simpl in E, Hrec.
      destruct (Qeq_bool a 0) eqn:E0; [discriminate|].
      destruct (Qeq_bool a 90) eqn:E1; [discriminate|].
      destruct (Qeq_bool a 180) eqn:E2; [discriminate|].
      destruct (Qeq_bool a 270) eqn:E3; [discriminate|].
      destruct Hrec as [H|[H|[H|H]]]; apply Qeq_bool_iff in H; congruence.
  - intros (v & Hv & _). exact (Hok v Hv).
  - apply orientation_step_unrecognized.
  - intros E Hrec. destruct o as [a|]; [|discriminate]. simpl in E, Hrec.
    destruct (Qeq_bool a 0) eqn:E0; [discriminate|].
    destruct (Qeq_bool a 90) eqn:E1; [discriminate|].
    destruct (Qeq_bool a 180) eqn:E2; [discriminate|].
    destruct (Qeq_bool a 270) eqn:E3; [discriminate|].
    destruct Hrec as [H|[H|[H|H]]]; apply Qeq_bool_iff in H; congruence.
Qed.

(** ** Coinciding anchors *)

Lemma Qltb_irrefl (a : Q) : Qltb a a = false.
Proof. apply Qltb_ge. apply Qle_refl. Qed.

(** X8. When the start node and the end node have the same coordinate,
    the call returns in its first iteration, without generating any
    neighbour: the route has three waypoints, the centre of the input port,
    the common anchor, and the centre of the output port. *)
Theorem coinciding_anchors_return_at_once :
  forall fuel c ip op r cs kw grid x y st en,
    setup c ip op r = Ok (grid, x, y, st, en) ->
    fst (position st) == fst (position en) ->
    snd (position st) == snd (position en) ->
    astar_routing (S fuel) c ip op r cs kw
    = Some (Returned []
              (get_route_from_waypoints
                 [center ip; position st; center op]
                 (get_cross_section cs kw))).
Proof.
  intros fuel c ip op r cs kw grid x y st en Hs Hx Hy.
  rewrite (astar_routing_setup_ok _ _ _ _ _ _ _ _ _ _ _ _ Hs).
  destruct (setup_inv _ _ _ _ _ _ _ _ _ Hs)
    as (oi & oo & _ & _ & _ & Hst & _).
  assert (Hend : reached_end en st = true).
  { unfold reached_end. apply andb_true_intro.
    split; apply Qeq_bool_iff; assumption. }
  rewrite (loop_reached grid x y r ip op (get_cross_section cs kw) en fuel
             (initial_state st) st).
  - unfold waypoints. subst st. reflexivity.
  - cbn. unfold select_current. cbn. now rewrite Qltb_irrefl.
  - exact Hend.
Qed.

Lemma coinciding_anchors_return_at_once_witness :
  astar_routing 1 empty_square west_port near_port 1 "strip" []
  = Some (Returned []
            (get_route_from_waypoints [(0, 5); (1, 5); (2, 5)]
               (get_cross_section "strip" []))).
Proof.
  refine (coinciding_anchors_return_at_once 0 empty_square west_port
            near_port 1 "strip" [] _ _ _ (mkNode 0 None (1, 5) 0 0 0)
            (mkNode 1 None (1, 5) 0 0 0) _ _ _).
  - by_evaluation.
  - reflexivity.
  - reflexivity.
Defined.

(** ** How the call can end *)

Lemma first_close_from_err v axis : forall i e,
  first_close_from i axis v = Err e -> e = StopIteration.
Proof.
  induction axis as [|a axis IH]; intros i e H; simpl in H.
  - now inversion H.
  - destruct (np_isclose a v 1); [discriminate|]. exact (IH _ _ H).
Qed.

Lemma first_close_lt axis v i :
  first_close axis v = Ok i -> (i < length axis)%nat.
Proof.
  unfold first_close. intro H.
  destruct (first_close_from_spec v axis 0 i H) as (_ & (a & Ha & _) & _).
  rewrite Nat.sub_0_r in Ha. apply nth_error_Some. congruence.
Qed.

Lemma grid_at_in_range (grid : grid_t) (n m i j : nat) :
  length grid = n -> Forall (fun row => length row = m) grid ->
  (i < n)%nat -> (j < m)%nat -> exists b, grid_at grid i j = Ok b.
Proof.
  intros Hn Hm Hi Hj. unfold grid_at.
  destruct (nth_error grid i) as [row|] eqn:Er.
  - rewrite Forall_forall in Hm.
    pose proof (Hm row (nth_error_In _ _ Er)) as Hrow.
    destruct (nth_error row j) as [b|] eqn:Eb; [now exists b|].
    apply nth_error_None in Eb. lia.
  - apply nth_error_None in Er. lia.
Qed.

Lemma generate_grid_well_shaped c r grid x y :
  _generate_grid c r = Ok (grid, x, y) ->
  x <> [] /\ y <> []
  /\ length grid = length x
  /\ Forall (fun row => length row = length y) grid.
Proof.
  intro H.
  destruct (generate_grid_inv _ _ _ _ _ H) as (x0 & y0 & Hax & -> & -> & ->).
  destruct (grid_axes_inv _ _ _ _ Hax) as (_ & _ & _ & _ & _ & _ & Hx & Hy).
  rewrite !length_map.
  split; [destruct x0; [congruence|discriminate]|].
  split; [destruct y0; [congruence|discriminate]|].
  apply fold_mark_shape.
  - apply repeat_length.
  - rewrite Forall_forall. intros row Hrow. apply repeat_spec in Hrow.
    subst. apply repeat_length.
Qed.

Section Endings.

Variables (grid : grid_t) (x y : list Q) (resolution : Q).
Variables (input_port output_port : Port) (cross_section : CrossSection).
Variable end_node : Node.

Hypothesis x_not_empty : x <> [].
Hypothesis y_not_empty : y <> [].
Hypothesis rows : length grid = length x.
Hypothesis columns : Forall (fun row => length row = length y) grid.

Lemma neighbours_loop_raises cur : forall deltas fresh acc e,
  neighbours_loop deltas cur grid x y fresh acc = Err e ->
  e = StopIteration.
Proof.
  induction deltas as [|mv deltas IH]; intros fresh acc e H;
    [discriminate|].
  simpl in H. unfold bind in H.
  destruct x as [|a x'] eqn:Ex; [congruence|]. rewrite <- Ex in *.
  destruct y as [|b y'] eqn:Ey; [congruence|]. rewrite <- Ey in *.
  assert (Hmaxx : np_max x = Ok (np_max_from a x')) by now rewrite Ex.
  assert (Hminx : np_min x = Ok (np_min_from a x')) by now rewrite Ex.
  assert (Hmaxy : np_max y = Ok (np_max_from b y')) by now rewrite Ey.
  assert (Hminy : np_min y = Ok (np_min_from b y')) by now rewrite Ey.
  rewrite Hmaxx in H.
  destruct (Qltb _ _); [exact (IH _ _ _ H)|].
  rewrite Hminx in H.
  destruct (Qltb _ _); [exact (IH _ _ _ H)|].
  rewrite Hmaxy in H.
  destruct (Qltb _ _); [exact (IH _ _ _ H)|].
  rewrite Hminy in H.
  destruct (Qltb _ _); [exact (IH _ _ _ H)|].
  destruct (first_close x _) as [i|e1] eqn:Ei;
    [|inversion H; subst; exact (first_close_from_err _ _ _ _ Ei)].
  destruct (first_close y _) as [j|e2] eqn:Ej;
    [|inversion H; subst; exact (first_close_from_err _ _ _ _ Ej)].
  destruct (grid_at_in_range grid _ _ i j rows columns
              (first_close_lt _ _ _ Ei) (first_close_lt _ _ _ Ej))
    as (occ & Eocc).
  rewrite Eocc in H. destruct occ; exact (IH _ _ _ H).
Qed.

Lemma astar_body_endings s :
  open_list s <> [] ->
  match astar_body grid x y resolution input_port output_port
          cross_section end_node s with
  | Again _ => True
  | ReturnRoute rt =>
      exists cur,
        reached_end end_node cur = true
        /\ rt = get_route_from_waypoints
                  (waypoints input_port output_port cur) cross_section
  | RaiseExn e => e = StopIteration
  end.
Proof.
  intro Hne. unfold astar_body.
  destruct (select_current_some _ Hne) as (cur & Hcur & _).
  rewrite Hcur.
  destruct (reached_end end_node cur) eqn:Eend.
  - exists cur. split; [exact Eend|reflexivity].
  - destruct (_generate_neighbours cur grid x y resolution (fresh s))
      as [nbs|e] eqn:Enb; [exact I|].
    exact (neighbours_loop_raises _ _ _ _ _ Enb).
Qed.

Lemma astar_loop_endings : forall fuel s o,
  astar_loop grid x y resolution input_port output_port cross_section
    end_node fuel s = Some o ->
  ending input_port output_port cross_section end_node o.
Proof.
  induction fuel as [|fuel IH]; intros s o H; simpl in H.
  - destruct (open_list s); [|discriminate].
    inversion H. right. right. reflexivity.
  - destruct (open_list s) as [|n ol] eqn:Eo.
    + inversion H. right. right. reflexivity.
    + assert (Hne : open_list s <> []) by (rewrite Eo; discriminate).
      pose proof (astar_body_endings s Hne) as Hb.
      destruct (astar_body _ _ _ _ _ _ _ _ s) as [s'|rt|e].
      * exact (IH _ _ H).
      * inversion H. right. left. destruct Hb as (cur & Hend & ->).
        exists cur. split; [exact Hend|reflexivity].
      * inversion H. left. now rewrite Hb.
Qed.

Hypothesis x_spacing : spacing_at_most 2 x.
Hypothesis y_spacing : spacing_at_most 2 y.

Lemma neighbours_loop_returns cur : forall deltas fresh acc,
  exists l, neighbours_loop deltas cur grid x y fresh acc = Ok l.
Proof.
  induction deltas as [|mv deltas IH]; intros fresh acc; simpl;
    [now exists acc|].
  unfold bind.
  destruct (np_max x) as [xmax|] eqn:Exmax;
    [|destruct x; [congruence|discriminate]].
  destruct (Qltb xmax _) eqn:E1; [apply IH|].
  destruct (np_min x) as [xmin|] eqn:Exmin;
    [|destruct x; [congruence|discriminate]].
  destruct (Qltb _ xmin) eqn:E2; [apply IH|].
  destruct (np_max y) as [ymax|] eqn:Eymax;
    [|destruct y; [congruence|discriminate]].
  destruct (Qltb ymax _) eqn:E3; [apply IH|].
  destruct (np_min y) as [ymin|] eqn:Eymin;
    [|destruct y; [congruence|discriminate]].
  destruct (Qltb _ ymin) eqn:E4; [apply IH|].
  destruct (first_close_in_bounds x _ xmax xmin x_spacing Exmax Exmin E1 E2)
    as (i & Ei & Hi).
  destruct (first_close_in_bounds y _ ymax ymin y_spacing Eymax Eymin E3 E4)
    as (j & Ej & Hj).
  rewrite Ei, Ej.
  destruct (grid_at_in_range grid _ _ i j rows columns Hi Hj)
    as (occ & Eocc).
  rewrite Eocc. destruct occ; apply IH.
Qed.

Lemma astar_loop_returns : forall fuel s o,
  astar_loop grid x y resolution input_port output_port cross_section
    end_node fuel s = Some o ->
  exists w rt, o = Returned w rt.
Proof.
  induction fuel as [|fuel IH]; intros s o H; simpl in H.
  - destruct (open_list s); [|discriminate]. inversion H. eauto.
  - destruct (open_list s) as [|n ol] eqn:Eo; [inversion H; eauto|].
    assert (Hne : open_list s <> []) by (rewrite Eo; discriminate).
    unfold astar_body in H.
    destruct (select_current_some _ Hne) as (cur & Hcur & _).
    rewrite Hcur in H.
    destruct (reached_end end_node cur); [inversion H; eauto|].
    destruct (neighbours_loop_returns cur (moves resolution) (fresh s) [])
      as (nbs & Enb).
    unfold _generate_neighbours in H. rewrite Enb in H.
    exact (IH _ _ H).
Qed.

End Endings.

(** X11. Once the grid is built and both orientations are recognised, a
    call that ends does so in one of three ways: with StopIteration, raised
    by the first-match search of neighbour generation; with the waypoint
    route through a node that has the coordinate of the end node, and no
    warning; or with the warning and the Manhattan route.  No other
    exception leaves the loop: the open list is never indexed out of range,
    the axes are never empty, and the grid is never read outside its
    rows and columns. *)
Theorem call_ends_in_one_of_three_ways :
  forall fuel c ip op r cs kw grid x y st en o,
    setup c ip op r = Ok (grid, x, y, st, en) ->
    astar_routing fuel c ip op r cs kw = Some o ->
    ending ip op (get_cross_section cs kw) en o.
Proof.
  intros fuel c ip op r cs kw grid x y st en o Hs H.
  rewrite (astar_routing_setup_ok _ _ _ _ _ _ _ _ _ _ _ _ Hs) in H.
  destruct (setup_inv _ _ _ _ _ _ _ _ _ Hs) as (_ & _ & Hg & _).
  destruct (generate_grid_well_shaped _ _ _ _ _ Hg) as (Hx & Hy & Hn & Hm).
  exact (astar_loop_endings grid x y r ip op (get_cross_section cs kw) en
           Hx Hy Hn Hm fuel (initial_state st) o H).
Qed.

Lemma call_ends_in_one_of_three_ways_witness :
  ending west_port east_port (get_cross_section "strip" [])
    (mkNode 1 None (7, 5) 0 0 0) (Raised StopIteration).
Proof.
  refine (call_ends_in_one_of_three_ways 1 empty_square west_port east_port
            3 "strip" [] _ _ _ (mkNode 0 None (3, 5) 0 0 0)
            (mkNode 1 None (7, 5) 0 0 0) (Raised StopIteration) _ _).
  - by_evaluation.
  - vm_compute. reflexivity.
Defined.

(** X12. When the consecutive coordinates of both axes of the grid are at
    most 2 apart, a call that got through grid generation and the two
    orientation lookups raises no exception: if it ends, it returns a
    route. *)
Theorem no_exception_on_fine_axes :
  forall fuel c ip op r cs kw grid x y st en o,
    setup c ip op r = Ok (grid, x, y, st, en) ->
    spacing_at_most 2 x -> spacing_at_most 2 y ->
    astar_routing fuel c ip op r cs kw = Some o ->
    exists w rt, o = Returned w rt.
Proof.
  intros fuel c ip op r cs kw grid x y st en o Hs Hsx Hsy H.
  rewrite (astar_routing_setup_ok _ _ _ _ _ _ _ _ _ _ _ _ Hs) in H.
  destruct (setup_inv _ _ _ _ _ _ _ _ _ Hs) as (_ & _ & Hg & _).
  destruct (generate_grid_well_shaped _ _ _ _ _ Hg) as (Hx & Hy & Hn & Hm).
  exact (astar_loop_returns grid x y r ip op (get_cross_section cs kw) en
           Hx Hy Hn Hm Hsx Hsy fuel (initial_state st) o H).
Qed.

Lemma no_exception_on_fine_axes_witness :
  exists o,
    astar_routing 9 empty_square west_port east_port 1 "strip" [] = Some o
    /\ exists w rt, o = Returned w rt.
Proof.
  eexists. split; [by_evaluation|].
  refine (no_exception_on_fine_axes 9 empty_square west_port east_port 1
            "strip" [] _ _ _ _ _ _ _ _ _ _).
  - by_evaluation.
  - simpl. repeat split; apply Qle_bool_iff; vm_compute; reflexivity.
  - simpl. repeat split; apply Qle_bool_iff; vm_compute; reflexivity.
  - vm_compute. reflexivity.
Defined.

(** ** When the grid is generated *)

Lemma np_linspace_positive (s t : Q) (n : Z) :
  (1 <= n)%Z -> exists a l, np_linspace s t n = Ok (a :: l).
Proof.
  intro Hn. unfold np_linspace.
  destruct (n <? 0)%Z eqn:E; [apply Z.ltb_lt in E; lia|].
  destruct (Z.to_nat n) as [|[|m]] eqn:En; [lia| |].
  - now exists s, [].
  - simpl. eauto.
Qed.

(** X13. Grid generation returns exactly when the resolution is not zero
    and the number of coordinates on each axis, the extent of the bounding
    box divided by the resolution and truncated, is at least 1; in every
    other case it raises. *)
Theorem grid_generated_iff_counts_positive :
  forall c r,
    (exists grid x y, _generate_grid c r = Ok (grid, x, y))
    <-> (exists nx ny,
            int_div (fst (snd (bbox c)) - fst (fst (bbox c))) r = Ok nx
            /\ int_div (snd (snd (bbox c)) - snd (fst (bbox c))) r = Ok ny
            /\ (1 <= nx)%Z /\ (1 <= ny)%Z).
Proof.
  intros c r. split.
  - intros (grid & x & y & H).
    destruct (generate_grid_inv _ _ _ _ _ H) as (x0 & y0 & Hax & _).
    destruct (grid_axes_inv _ _ _ _ Hax)
      as (nx & ny & Hnx & Hx & Hny & Hy & Hxne & Hyne).
    exists nx, ny. split; [exact Hnx|]. split; [exact Hny|].
    pose proof (np_linspace_length _ _ _ _ Hx) as Lx.
    pose proof (np_linspace_length _ _ _ _ Hy) as Ly.
    destruct x0; [congruence|]. destruct y0; [congruence|].
    simpl in Lx, Ly. lia.
  - intros (nx & ny & Hnx & Hny & H1 & H2).
    destruct (np_linspace_positive (fst (fst (bbox c))) (fst (snd (bbox c)))
                nx H1) as (a & xs & Hx).
    destruct (np_linspace_positive (snd (fst (bbox c))) (snd (snd (bbox c)))
                ny H2) as (b & ys & Hy).
    unfold _generate_grid, grid_axes, bind.
    rewrite Hnx, Hx, Hny, Hy. eauto.
Qed.
